(** * parameter_updater.py: the object walk [process_object]

    A shallow embedding of the traversal-and-mutation core of
    [src/parameter_updater.py] ([get_safe_attribute], [process_object] and the
    two module-level ledgers [changed_ids] and [same_ids]), followed by the
    properties of the walk.  The two URL helpers [parse_speckle_url] and
    [sanitize_server_url] are embedded after the walk, over a small
    backtracking matcher for the regular expression of line 58.

    Python objects live in a heap indexed by addresses, so that two references
    to one object alias: a rewrite through one path is seen through every
    other.  Exceptions are values of [result]; the module-level lists, the
    [processed] set and the console are fields of the state [world] that is
    threaded through every call.

    Outside the model: exceptions that do not derive from [Exception]
    ([KeyboardInterrupt], [SystemExit]), the recursion limit of the
    interpreter, and the lines of the console that report no decision of the
    walk (the type of the object, the entry into a member or a list); the
    calls of the Speckle client and transport in [main] and
    [verify_token_and_permissions]. *)

From Stdlib Require Import Ascii.
From stdpp Require Import gmap strings list fin_maps relations.

Local Open Scope string_scope.
Local Open Scope Z_scope.
Local Open Scope list_scope.

(** ** Python values, exceptions and objects *)

Definition addr := positive.

(** The values an attribute can hold.  [VBase a] is a reference to the
    [Base] object at address [a]; every other constructor is a value for
    which [isinstance(value, Base)] is false. *)
#[warnings="-register-all"]
Inductive value :=
| VNone
| VStr (s : string)
| VNum (n : Z)
| VBase (a : addr)
| VList (items : list value).

(** Exceptions deriving from [Exception].  [hasattr] and the three-argument
    [getattr] swallow [AttributeError] only. *)
Inductive exn :=
| AttributeError
| TypeError
| OtherError (name : string).

Inductive result (A : Type) :=
| Ret (x : A)
| Exc (e : exn).
Arguments Ret {A} x.
Arguments Exc {A} e.

(** [try: body except: handler] *)
Definition try_except {A} (body : result A) (handler : exn → result A) : result A :=
  match body with
  | Ret x => Ret x
  | Exc e => handler e
  end.

(** What looking an attribute up does: it yields a value, or its getter
    raises. A name with no slot raises [AttributeError]. *)
Inductive slot :=
| Val (v : value)
| Raises (e : exn).

(** Modelled from the spec: the class [Base] of specklepy is imported, not
    defined in this repository.  Following the Object Model of the spec
    (named fields read and written in place, and an enumeration of member
    names), an object is its attribute slots together with what a call of
    [get_member_names()] produces. The identifier is the attribute ["id"]. *)
Record Base := mkBase {
  attrs : gmap string slot;
  member_names : result (list string)
}.

(** [getattr(obj, name)] *)
Definition getattr (o : Base) (name : string) : result value :=
  match attrs o !! name with
  | Some (Val v) => Ret v
  | Some (Raises e) => Exc e
  | None => Exc AttributeError
  end.

(** [getattr(obj, name, default)] *)
Definition getattr_default (o : Base) (name : string) (default : value) : result value :=
  match getattr o name with
  | Exc AttributeError => Ret default
  | r => r
  end.

(** [hasattr(obj, name)] *)
Definition hasattr (o : Base) (name : string) : result bool :=
  match getattr o name with
  | Ret _ => Ret true
  | Exc AttributeError => Ret false
  | Exc e => Exc e
  end.

(** [obj[name] = v] *)
Definition setitem (o : Base) (name : string) (v : value) : Base :=
  mkBase (<[name := Val v]> (attrs o)) (member_names o).

(** [obj[name]] *)
Definition getitem (o : Base) (name : string) : result value := getattr o name.

(** Lines 93-107. *)
Definition get_safe_attribute (o : Base) (attr : string) : result value :=
  try_except (getattr_default o attr VNone) (λ _, Ret VNone).

(** Truth value of [if v]. *)
Definition truthy (v : value) : bool :=
  match v with
  | VNone => false
  | VStr s => negb (String.eqb s "")
  | VNum n => negb (n =? 0)%Z
  | VBase _ => true
  | VList items => match items with [] => false | _ => true end
  end.

(** A list cannot be a member of a set: [x in processed] raises [TypeError]
    for it. *)
Definition hashable (v : value) : bool :=
  match v with
  | VList _ => false
  | _ => true
  end.

(** [v == w] on hashable values. *)
Definition py_eq (v w : value) : bool :=
  match v, w with
  | VNone, VNone => true
  | VStr s, VStr t => String.eqb s t
  | VNum n, VNum m => (n =? m)%Z
  | VBase a, VBase b => Pos.eqb a b
  | _, _ => false
  end.

(** [v in processed] *)
Definition inb (v : value) (s : list value) : bool := existsb (py_eq v) s.

(** ** The state *)

(** Console lines that mark a decision of the walk. The lines for an object
    carry its address, which the console does not show. *)
Inductive event :=
| EvMaxDepth (depth : Z)
| EvAlready (obj_id : value)
| EvProcessing (a : addr) (obj_id : value)
| EvUpdated (a : addr) (obj_id : value) (old_value : value)
| EvMemberError (name : string) (e : exn)
| EvObjectError (e : exn).

Record world := mkWorld {
  heap : gmap addr Base;
  processed : list value;
  changed_ids : list value;
  same_ids : list value;
  log : list event
}.

Definition emit (e : event) (w : world) : world :=
  mkWorld (heap w) (processed w) (changed_ids w) (same_ids w) (log w ++ [e]).

Definition add_processed (i : value) (w : world) : world :=
  mkWorld (heap w) (processed w ++ [i]) (changed_ids w) (same_ids w) (log w).

Definition append_same (i : value) (w : world) : world :=
  mkWorld (heap w) (processed w) (changed_ids w) (same_ids w ++ [i]) (log w).

Definition append_changed (i : value) (w : world) : world :=
  mkWorld (heap w) (processed w) (changed_ids w ++ [i]) (same_ids w) (log w).

Definition store (a : addr) (o : Base) (w : world) : world :=
  mkWorld (<[a := o]> (heap w)) (processed w) (changed_ids w) (same_ids w) (log w).

Definition with_processed (s : list value) (w : world) : world :=
  mkWorld (heap w) s (changed_ids w) (same_ids w) (log w).

(** ** The walk *)

Section process_object.
Context (SpeckleId target_key target_value : string) (max_depth : Z).

(** Lines 173-184: the object is entered in [processed] when its identifier
    is truthy, announced, and recorded in [same_ids] when its identifier
    differs from [SpeckleId]. *)
Definition enter (a : addr) (obj_id : value) (w : world) : world :=
  let w := if truthy obj_id then add_processed obj_id w else w in
  let w := emit (EvProcessing a obj_id) w in
  if negb (py_eq obj_id (VStr SpeckleId)) then append_same obj_id w else w.

(** Lines 192-196. *)
Definition rewrite_field (a : addr) (o : Base) (obj_id old_value : value) (w : world) : world :=
  let w := store a (setitem o target_key (VStr target_value)) w in
  let w := emit (EvUpdated a obj_id old_value) w in
  append_changed obj_id w.

Section members.
(** The recursive call [process_object(value, ..., depth + 1, max_depth, processed)]. *)
Variable recurse : value → world → option (result bool * world).

(** Lines 216-220. The flag [changes_made] is a local of the caller, so it is
    returned also when an item raises. *)
Fixpoint process_list (items : list value) (changes_made : bool) (w : world)
  : option (bool * option exn * world) :=
  match items with
  | [] => Some (changes_made, None, w)
  | item :: rest =>
      match item with
      | VBase _ =>
          match recurse item w with
          | None => None
          | Some (Ret sub_changes, w') => process_list rest (changes_made || sub_changes) w'
          | Some (Exc e, w') => Some (changes_made, Some e, w')
          end
      | _ => process_list rest changes_made w
      end
  end.

(** Lines 204-224: the body of the loop over member names, with its handler.
    [a] is the address of [obj]; the object is read from the heap at each
    turn, as a reference is. (A reference always finds its object: the first
    branch is there for totality.) *)
Definition process_member (a : addr) (name : string) (changes_made : bool) (w : world)
  : option (bool * world) :=
  match heap w !! a with
  | None => Some (changes_made, w)
  | Some o =>
      match getattr o name with
      | Exc e => Some (changes_made, emit (EvMemberError name e) w)
      | Ret (VBase c) =>
          match recurse (VBase c) w with
          | None => None
          | Some (Ret sub_changes, w') => Some (changes_made || sub_changes, w')
          | Some (Exc e, w') => Some (changes_made, emit (EvMemberError name e) w')
          end
      | Ret (VList items) =>
          match process_list items changes_made w with
          | None => None
          | Some (changes_made, None, w') => Some (changes_made, w')
          | Some (changes_made, Some e, w') =>
              Some (changes_made, emit (EvMemberError name e) w')
          end
      | Ret _ => Some (changes_made, w)
      end
  end.

(** Line 203. *)
Fixpoint process_members (a : addr) (names : list string) (changes_made : bool) (w : world)
  : option (bool * world) :=
  match names with
  | [] => Some (changes_made, w)
  | name :: rest =>
      match process_member a name changes_made w with
      | None => None
      | Some (changes_made, w') => process_members a rest changes_made w'
      end
  end.

(** Lines 199-229: the loop over the members inside the outer handler.
    [names] is what [obj.get_member_names()] gave; every [Base] has that
    method, so that line 201 never takes the empty list. *)
Definition process_children (a : addr) (changes_made : bool)
    (names : result (list string)) (w : world) : option (result bool * world) :=
  match names with
  | Exc e => Some (Ret changes_made, emit (EvObjectError e) w)
  | Ret names =>
      match process_members a names changes_made w with
      | None => None
      | Some (changes_made, w') => Some (Ret changes_made, w')
      end
  end.

(** Lines 165-229, for the object [o] found at address [a]. *)
Definition process_base (a : addr) (o : Base) (w : world) : option (result bool * world) :=
  match get_safe_attribute o "id" with
  | Exc e => Some (Exc e, w)
  | Ret obj_id =>
      if truthy obj_id && negb (hashable obj_id) then Some (Exc TypeError, w)
      else if truthy obj_id && inb obj_id (processed w)
      then Some (Ret false, emit (EvAlready obj_id) w)
      else
        let w := enter a obj_id w in
        match hasattr o target_key with
        | Exc e => Some (Exc e, w)
        | Ret false => process_children a false (member_names o) w
        | Ret true =>
            match getitem o target_key with
            | Exc e => Some (Exc e, w)
            | Ret old_value =>
                process_children a true (member_names o)
                  (rewrite_field a o obj_id old_value w)
            end
        end
  end.

(** Lines 156-229: one call, its nested calls being [recurse]. *)
Definition process_object_body (obj : value) (depth : Z) (w : world)
  : option (result bool * world) :=
  if depth >? max_depth then Some (Ret false, emit (EvMaxDepth depth) w)
  else
    match obj with
    | VBase a =>
        match heap w !! a with
        | None => Some (Ret false, w)
        | Some o => process_base a o w
        end
    | _ => Some (Ret false, w)
    end.
End members.

(** [fuel] bounds the nesting of calls; [None] means that it ran out. *)
Fixpoint process_object_rec (fuel : nat) (obj : value) (depth : Z) (w : world)
  : option (result bool * world) :=
  match fuel with
  | O => None
  | S fuel =>
      process_object_body (λ v w', process_object_rec fuel v (depth + 1) w') obj depth w
  end.

(** The calls nest at most [max_depth - depth + 2] deep: the last one is
    above the ceiling and returns at line 160. *)
Definition enough_fuel (depth : Z) : nat := S (Z.to_nat (max_depth - depth + 1)).

(** Lines 133-229. [processed = None] is the default argument, replaced by a
    fresh set at lines 153-154. *)
Definition process_object (obj : value) (depth : Z) (processed : option (list value))
    (w : world) : option (result bool * world) :=
  process_object_rec (enough_fuel depth) obj depth
    (with_processed (default [] processed) w).

End process_object.

(** ** Sample graphs *)

Definition obj_of (fields : list (string * slot)) (names : list string) : Base :=
  mkBase (list_to_map fields) (Ret names).

Definition world_of (objs : list (addr * Base)) : world :=
  mkWorld (list_to_map objs) [] [] [] [].

(** The scenario of the spec: a root with fields [a: NodeX] and
    [b: [NodeY, "scalar", NodeX]], the field ["w"] on [NodeY] only. *)
Definition scenario : world :=
  world_of
    [ (1%positive, obj_of [("id", Val (VStr "root")); ("a", Val (VBase 2%positive));
                           ("b", Val (VList [VBase 3%positive; VStr "scalar"; VBase 2%positive]))]
                          ["id"; "a"; "b"]);
      (2%positive, obj_of [("id", Val (VStr "x"))] ["id"]);
      (3%positive, obj_of [("id", Val (VStr "y")); ("w", Val (VStr "5"))] ["id"; "w"]) ].

(** A root that reaches one object without identifier through two members. *)
Definition diamond : world :=
  world_of
    [ (1%positive, obj_of [("id", Val (VStr "root")); ("a", Val (VBase 2%positive));
                           ("b", Val (VBase 2%positive))] ["id"; "a"; "b"]);
      (2%positive, obj_of [("w", Val (VStr "5"))] ["w"]) ].

Definition run_diamond := process_object "the_specl" "w" "200" 10 (VBase 1%positive) 0 None diamond.

(** An object that is its own member, without and with an identifier. *)
Definition selfloop (fields : list (string * slot)) : world :=
  world_of [ (1%positive, obj_of (fields ++ [("w", Val (VStr "5")); ("me", Val (VBase 1%positive))])
                                 ["w"; "me"]) ].

(** A root with the target field and one child that has it too. *)
Definition rooted : world :=
  world_of
    [ (1%positive, obj_of [("id", Val (VStr "root")); ("w", Val (VStr "5"));
                           ("kid", Val (VBase 2%positive))] ["id"; "w"; "kid"]);
      (2%positive, obj_of [("id", Val (VStr "kid")); ("w", Val (VStr "7"))] ["id"; "w"]) ].

(** A root whose target field has a getter that raises [ValueError]. *)
Definition faulty : world :=
  world_of [ (1%positive, obj_of [("id", Val (VStr "root"));
                                  ("w", Raises (OtherError "ValueError"))] ["id"]) ].

(** A single object. *)
Definition lone : world := world_of [ (1%positive, obj_of [("id", Val (VStr "n"))] ["id"]) ].

(** A root whose target field holds the only reference to an object. *)
Definition wrapped : world :=
  world_of
    [ (1%positive, obj_of [("id", Val (VStr "root")); ("w", Val (VBase 2%positive))] ["id"; "w"]);
      (2%positive, obj_of [("id", Val (VStr "y"))] ["id"]) ].

(** A list member whose first item has a target field that raises. *)
Definition broken_item : world :=
  world_of
    [ (1%positive, obj_of [("id", Val (VStr "root"));
                           ("items", Val (VList [VBase 2%positive; VBase 3%positive]))]
                          ["id"; "items"]);
      (2%positive, obj_of [("id", Val (VStr "a")); ("w", Raises (OtherError "ValueError"))]
                          ["id"]);
      (3%positive, obj_of [("id", Val (VStr "b"))] ["id"]) ].

(** Two objects with one identifier, the second with a child. *)
Definition twins : world :=
  world_of
    [ (1%positive, obj_of [("id", Val (VStr "root"));
                           ("items", Val (VList [VBase 2%positive; VBase 3%positive]))]
                          ["id"; "items"]);
      (2%positive, obj_of [("id", Val (VStr "x"))] ["id"]);
      (3%positive, obj_of [("id", Val (VStr "x")); ("kid", Val (VBase 4%positive))]
                          ["id"; "kid"]);
      (4%positive, obj_of [("id", Val (VStr "c"))] ["id"]) ].

(** An object whose identifier is the empty string, reached through two
    members. *)
Definition unnamed : world :=
  world_of
    [ (1%positive, obj_of [("id", Val (VStr "root")); ("a", Val (VBase 2%positive));
                           ("b", Val (VBase 2%positive))] ["id"; "a"; "b"]);
      (2%positive, obj_of [("id", Val (VStr ""))] ["id"]) ].

Definition run_scenario := process_object "the_specl" "w" "200" 10 (VBase 1%positive) 0 None scenario.

(** ** The mutation policy as a function on objects *)

(** What lines 191-193 do to an object: the target field is overwritten
    when [hasattr] finds it. *)
Definition policy (target_key target_value : string) (o : Base) : Base :=
  match hasattr o target_key with
  | Ret true => setitem o target_key (VStr target_value)
  | _ => o
  end.

(** ** The steps a walk is made of *)

(** The lines of the console that leave every other part of the state alone. *)
Definition quiet (e : event) : bool :=
  match e with
  | EvProcessing _ _ | EvUpdated _ _ _ => false
  | _ => true
  end.

(** When line 176 is reached for the object at [a]. *)
Definition admitted (a : addr) (o : Base) (obj_id : value) (w : world) : Prop :=
  heap w !! a = Some o ∧ get_safe_attribute o "id" = Ret obj_id ∧
  (truthy obj_id = true → hashable obj_id = true ∧ inb obj_id (processed w) = false).

(** One step: a line on the console, a visit that leaves the object as it
    is, or a visit that rewrites the target field. *)
Inductive step (SpeckleId target_key target_value : string) : world → world → Prop :=
| step_emit w e : quiet e = true → step SpeckleId target_key target_value w (emit e w)
| step_enter w a o obj_id :
    admitted a o obj_id w → hasattr o target_key ≠ Ret true →
    step SpeckleId target_key target_value w (enter SpeckleId a obj_id w)
| step_rewrite w a o obj_id old_value :
    admitted a o obj_id w → hasattr o target_key = Ret true →
    step SpeckleId target_key target_value w
      (rewrite_field target_key target_value a o obj_id old_value (enter SpeckleId a obj_id w)).

Definition steps (SpeckleId target_key target_value : string) : relation world :=
  rtc (step SpeckleId target_key target_value).

Definition quiet_step (w w' : world) : Prop := ∃ e, quiet e = true ∧ w' = emit e w.

(** ** What the console tells about a walk *)

(** The objects that reached line 177, with the identifier read at line 165. *)
Definition visits (l : list event) : list (addr * value) :=
  omap (λ e, match e with EvProcessing a i => Some (a, i) | _ => None end) l.

(** The objects rewritten at line 193. *)
Definition updates (l : list event) : list (addr * value) :=
  omap (λ e, match e with EvUpdated a i _ => Some (a, i) | _ => None end) l.

(** [l.count(i)] *)
Definition count (i : value) (l : list value) : nat :=
  length (filter (λ j, Is_true (py_eq j i)) l).

(** How often the object at [a] occurs. *)
Definition count_addr (a : addr) (l : list (addr * value)) : nat :=
  length (filter (λ p, p.1 = a) l).

(** [w] is reached from [w0] with [Δ] printed in between. *)
Record tracks (SpeckleId target_key target_value : string)
    (w0 w : world) (Δ : list event) : Prop := {
  tr_log : log w = log w0 ++ Δ;
  tr_changed : changed_ids w = changed_ids w0 ++ (updates Δ).*2;
  tr_same : same_ids w = same_ids w0 ++
              filter (λ i, py_eq i (VStr SpeckleId) = false) (visits Δ).*2;
  tr_processed : processed w = processed w0 ++ filter (λ i, Is_true (truthy i)) (visits Δ).*2;
  tr_heap : ∀ a, heap w !! a =
              if decide (a ∈ (updates Δ).*1)
              then policy target_key target_value <$> heap w0 !! a
              else heap w0 !! a;
  tr_fresh : NoDup (filter (λ i, Is_true (truthy i)) (visits Δ).*2);
  tr_new : ∀ i, i ∈ (filter (λ i, Is_true (truthy i)) (visits Δ).*2) → i ∉ processed w0;
  tr_sub : updates Δ `sublist_of` visits Δ;
  tr_hashable : ∀ a i, (a, i) ∈ visits Δ → truthy i = true → hashable i = true;
  tr_visit_id : ∀ a i, (a, i) ∈ visits Δ →
      ∃ o, heap w0 !! a = Some o ∧
           (get_safe_attribute o "id" = Ret i ∨
            get_safe_attribute (policy target_key target_value o) "id" = Ret i);
  tr_update_has : ∀ a i, (a, i) ∈ updates Δ →
      ∃ o, heap w0 !! a = Some o ∧ hasattr o target_key = Ret true;
  tr_visit_update : ∀ a i o, (a, i) ∈ visits Δ → heap w0 !! a = Some o →
      hasattr o target_key = Ret true → (a, i) ∈ updates Δ
}.

(** ** Two walks side by side *)

(** [v] is [w] with the policy applied to some of its objects. *)
Definition ahead (target_key target_value : string) (w v : world) : Prop :=
  processed v = processed w ∧
  ∀ x, heap v !! x = heap w !! x ∨ heap v !! x = policy target_key target_value <$> heap w !! x.

(** Two walks in step: they end in states that are again [ahead], objects
    that were equal are still equal, and the consoles show the same visits
    and the same rewrites. *)
Definition lockstep (target_key target_value : string) (w w' v v' : world) : Prop :=
  ahead target_key target_value w' v' ∧
  (∀ x, heap v !! x = heap w !! x → heap v' !! x = heap w' !! x) ∧
  ∃ Δw Δv, log w' = log w ++ Δw ∧ log v' = log v ++ Δv ∧
           visits Δw = visits Δv ∧ updates Δw = updates Δv.

(** ** The graph the walk reads *)

(** [isinstance(item, Base)] on the items of a list. *)
Definition bases (items : list value) : list addr :=
  omap (λ v, match v with VBase c => Some c | _ => None end) items.

(** The objects that lines 205-220 call the walk on for one member. *)
Definition member_kids (o : Base) (name : string) : list addr :=
  match getattr o name with
  | Ret (VBase c) => [c]
  | Ret (VList items) => bases items
  | _ => []
  end.

(** The objects that the loop of lines 203-224 calls the walk on. *)
Definition kids (o : Base) : list addr :=
  match member_names o with
  | Ret names => names ≫= member_kids o
  | Exc _ => []
  end.

(** The value that line 165 reads. *)
Definition id_of (o : Base) : value :=
  match get_safe_attribute o "id" with
  | Ret i => i
  | Exc _ => VNone
  end.

(** The graph [g] below [a] is at most [n] objects deep: no chain of members
    from [a] has more than [n] objects before it comes to an object whose
    identifier is truthy and already met, on the chain or in [seen]. *)
Fixpoint within (g : gmap addr Base) (n : nat) (seen : list value) (a : addr) : bool :=
  match g !! a with
  | None => true
  | Some o =>
      let i := id_of o in
      if truthy i && inb i seen then true
      else
        match n with
        | O => false
        | S n => forallb (within g n (if truthy i then i :: seen else seen)) (kids o)
        end
  end.

Definition edge (g : gmap addr Base) (a c : addr) : Prop :=
  ∃ o, g !! a = Some o ∧ c ∈ kids o.

Definition reaches (g : gmap addr Base) : relation addr := rtc (edge g).

(** No membership test on the target field raises, and no identifier is a
    non-empty list. *)
Definition calm_obj (target_key : string) (o : Base) : bool :=
  match hasattr o target_key with Ret _ => true | Exc _ => false end &&
  implb (truthy (id_of o)) (hashable (id_of o)).

Definition calm (target_key : string) (g : gmap addr Base) : Prop :=
  map_Forall (λ _ o, calm_obj target_key o = true) g.

(** A truthy identifier belongs to one object of the graph. *)
Definition ids_identify (g : gmap addr Base) : Prop :=
  map_Forall (λ a oa, map_Forall (λ b ob,
    truthy (id_of oa) && py_eq (id_of oa) (id_of ob) = true → a = b) g) g.

(** [g] is the heap of [w] with the policy applied to every object: the
    members of an object are read after the policy was applied to it. *)
Definition agrees (target_key target_value : string) (g : gmap addr Base) (w : world) : Prop :=
  policy target_key target_value <$> heap w = g.

(** The walk is through with [a]: its identifier is in [processed], or it
    has none and the walk is through with its members. *)
Inductive settled (g : gmap addr Base) (P : list value) : addr → Prop :=
| settled_seen a o :
    g !! a = Some o → truthy (id_of o) = true → id_of o ∈ P → settled g P a
| settled_idless a o :
    g !! a = Some o → truthy (id_of o) = false → (∀ c, c ∈ kids o → settled g P c) →
    settled g P a
| settled_dangling a : g !! a = None → settled g P a.

(** The walk is through with the members of every object entered in
    [processed], but for the objects [G] whose loops are still running. *)
Definition closed_except (g : gmap addr Base) (G P : list value) : Prop :=
  ∀ a o, g !! a = Some o → truthy (id_of o) = true → id_of o ∈ P → id_of o ∉ G →
         ∀ c, c ∈ kids o → settled g P c.

(** What a call at [depth] on an object achieves when the graph below the
    object is within the depth left. *)
Definition call_ok (target_key target_value : string) (max_depth : Z) (g : gmap addr Base)
    (depth : Z) (recurse : value → world → option (result bool * world)) : Prop :=
  ∀ c w r w' G, recurse (VBase c) w = Some (r, w') → agrees target_key target_value g w →
    within g (Z.to_nat (max_depth - depth + 1)) (processed w) c = true →
    closed_except g G (processed w) →
    (∃ b, r = Ret b) ∧ settled g (processed w') c ∧ closed_except g G (processed w').

(** ** More about one walk *)

(** Whether the console shows a rewrite. *)
Definition rewrote (l : list event) : bool :=
  match updates l with [] => false | _ => true end.

(** What a call returns, against what it printed: the flag tells whether a
    field was rewritten, and a call that raises has rewritten none. *)
Definition flag_ok (r : result bool) (Δ : list event) : Prop :=
  match r with
  | Ret b => b = rewrote Δ
  | Exc _ => rewrote Δ = false
  end.

(** [c] is at most [n] members away from [a] in the graph [g]. *)
Inductive reaches_in (g : gmap addr Base) : nat → addr → addr → Prop :=
| reaches_in_here n a : reaches_in g n a a
| reaches_in_step n a b c : edge g a b → reaches_in g n b c → reaches_in g (S n) a c.

(** What a call at [depth] on the object [c] visits is at most
    [max_depth - depth] members away from [c]; a call above the ceiling
    visits nothing. *)
Definition near (target_key target_value : string) (max_depth : Z) (g : gmap addr Base)
    (depth : Z) (recurse : value → world → option (result bool * world)) : Prop :=
  ∀ c w r w', recurse (VBase c) w = Some (r, w') → agrees target_key target_value g w →
    ∃ Δ, log w' = log w ++ Δ ∧
         ∀ a, a ∈ (visits Δ).*1 →
              depth ≤ max_depth ∧ reaches_in g (Z.to_nat (max_depth - depth)) c a.

(** * The URL helpers *)

(** A [str] of the URL helpers is the list of its characters, and [text]
    reads a literal. The helpers only compare characters with one another. *)
Local Abbreviation text := String.list_ascii_of_string.

(** ** Regular expressions, as far as line 58 uses them *)

(** A set of characters: [c], [[^c]], and [.] that is every character but the
    newline. *)
Inductive charset :=
| Chr (c : ascii)
| NotChr (c : ascii)
| Dot.

Definition accepts (k : charset) (x : ascii) : bool :=
  match k with
  | Chr c => Ascii.eqb x c
  | NotChr c => negb (Ascii.eqb x c)
  | Dot => negb (Ascii.eqb x "010")
  end.

(** [Opt k] is [k?], [Plus k] is [k+], and [Group i r] is the [i]-th pair of
    parentheses. *)
Inductive regex :=
| Eps
| One (k : charset)
| Opt (k : charset)
| Plus (k : charset)
| Group (i : nat) (r : regex)
| Seq (r1 r2 : regex).

Fixpoint lit (l : list ascii) : regex :=
  match l with
  | [] => Eps
  | c :: l => Seq (One (Chr c)) (lit l)
  end.

Definition cat (rs : list regex) : regex := foldr Seq Eps rs.

(** What the groups matched, by their numbers. *)
Definition captures := gmap nat (list ascii).

(** [k*] before the rest [rest] of the pattern: the repetition is greedy, it
    takes a character more before it tries the rest, and gives it back when
    the rest fails. *)
Fixpoint star {A} (k : charset) (s : list ascii) (rest : list ascii → option A) : option A :=
  match s with
  | x :: s' =>
      if accepts k x
      then match star k s' rest with
           | Some a => Some a
           | None => rest s
           end
      else rest s
  | [] => rest s
  end.

(** The backtracking matcher: [run r s gs rest] matches [r] at the start of
    [s] and hands what is left of [s], with the groups matched so far, to the
    [rest] of the pattern; the first way to match that [rest] accepts is the
    answer. *)
Fixpoint run {A} (r : regex) (s : list ascii) (gs : captures)
    (rest : list ascii → captures → option A) : option A :=
  match r with
  | Eps => rest s gs
  | One k =>
      match s with
      | x :: s' => if accepts k x then rest s' gs else None
      | [] => None
      end
  | Opt k =>
      match s with
      | x :: s' =>
          if accepts k x
          then match rest s' gs with
               | Some a => Some a
               | None => rest s gs
               end
          else rest s gs
      | [] => rest s gs
      end
  | Plus k =>
      match s with
      | x :: s' => if accepts k x then star k s' (λ s'', rest s'' gs) else None
      | [] => None
      end
  | Group i r =>
      run r s gs (λ s' gs', rest s' (<[i := take (length s - length s') s]> gs'))
  | Seq r1 r2 => run r1 s gs (λ s' gs', run r2 s' gs' rest)
  end.

(** [re.match(pattern, s)]: a match at the start of [s], which need not reach
    its end; [None] when there is none. *)
Definition re_match (r : regex) (s : list ascii) : option captures :=
  run r s ∅ (λ _ gs, Some gs).

(** [match.group(i)]: [None] for a group that took no part in the match. *)
Definition group (m : captures) (i : nat) : option (list ascii) := m !! i.

(** ** [parse_speckle_url] *)

(** Line 58: [https?://([^/]+)/projects/([^/]+)/models/([^@]+)@(.+)] *)
Definition pattern : regex :=
  cat [lit (text "http"); Opt (Chr "s"); lit (text "://");
       Group 1 (Plus (NotChr "/")); lit (text "/projects/");
       Group 2 (Plus (NotChr "/")); lit (text "/models/");
       Group 3 (Plus (NotChr "@")); One (Chr "@");
       Group 4 (Plus Dot)].

(** Lines 57-72. The [ValueError] of line 69 is caught at line 70, which
    prints and returns [None]. *)
Definition parse_speckle_url (url : list ascii) : option (gmap string (option (list ascii))) :=
  match re_match pattern url with
  | Some m =>
      Some {[ "server" := group m 1; "stream_id" := group m 2;
              "branch_name" := group m 3; "commit_id" := group m 4 ]}
  | None => None
  end.

(** ** [sanitize_server_url] *)

(** [s.startswith(p)] *)
Fixpoint startswith (p s : list ascii) : bool :=
  match p, s with
  | [], _ => true
  | c :: p', x :: s' => Ascii.eqb c x && startswith p' s'
  | _ :: _, [] => false
  end.

(** [s.replace(old, new)] for a non-empty [old], from left to right: at an
    occurrence of [old] it writes [new] and skips the occurrence. *)
Fixpoint replace_go (old new : list ascii) (skip : nat) (s : list ascii) : list ascii :=
  match s with
  | [] => []
  | x :: s' =>
      match skip with
      | S n => replace_go old new n s'
      | O =>
          if startswith old s
          then new ++ replace_go old new (length old - 1) s'
          else x :: replace_go old new 0 s'
      end
  end.

(** [s.replace(old, new)]; an empty [old] occurs before every character and
    at the end. *)
Definition replace (old new s : list ascii) : list ascii :=
  match old with
  | [] => new ++ (s ≫= λ x, x :: new)
  | _ :: _ => replace_go old new 0 s
  end.

(** [s.rstrip(chars)] *)
Fixpoint rstrip (chars s : list ascii) : list ascii :=
  match s with
  | [] => []
  | x :: s' =>
      match rstrip chars s' with
      | [] => if bool_decide (x ∈ chars) then [] else [x]
      | r => x :: r
      end
  end.

(** Lines 88-91. *)
Definition sanitize_server_url (url : list ascii) : list ascii :=
  let url := replace (text "https://") [] (replace (text "http://") [] url) in
  let url := rstrip (text "/") url in
  let url := replace (text "//") (text "/") url in
  url.

(** ** The URLs that [parse_speckle_url] reads *)

(** [s] is empty or starts with a character outside [k]: a repetition of [k]
    cannot go on into [s]. *)
Definition stops (k : charset) (s : list ascii) : Prop :=
  match s with
  | [] => True
  | x :: _ => accepts k x = false
  end.

Definition scheme (secure : bool) : list ascii :=
  if secure then text "https" else text "http".

(** [http(s)://server/projects/stream_id/models/branch_name@commit_id] *)
Definition fe2_url (secure : bool) (server stream_id branch_name commit_id : list ascii)
  : list ascii :=
  scheme secure ++ text "://" ++ server ++ text "/projects/" ++ stream_id ++
  text "/models/" ++ branch_name ++ text "@" ++ commit_id.

(** A part of the URL: not empty, and free of the character [stop]. *)
Definition part (stop : ascii) (t : list ascii) : Prop := t ≠ [] ∧ stop ∉ t.

(** The dictionary of lines 62-67 for four parts. *)
Definition url_parts (server stream_id branch_name commit_id : list ascii)
  : gmap string (option (list ascii)) :=
  {[ "server" := Some server; "stream_id" := Some stream_id;
     "branch_name" := Some branch_name; "commit_id" := Some commit_id ]}.

(** Line 246: the URL that [main] parses. *)
Definition main_url : list ascii :=
  text "https://app.speckle.systems/projects/f9eeb0be04/models/d3bcf9820c@ca5cde436f".

(** * Properties *)

(** ** Attribute access *)

Lemma get_safe_attribute_ret o attr : ∃ v, get_safe_attribute o attr = Ret v.
Proof.
  unfold get_safe_attribute, getattr_default, getattr.
  destruct (attrs o !! attr) as [[v|[]]|]; simpl; eauto.
Qed.

Lemma py_eq_eq v w : py_eq v w = true → v = w.
Proof.
  destruct v, w; simpl; try discriminate; intros H; f_equal.
  - by apply String.eqb_eq.
  - by apply Z.eqb_eq.
  - by apply Pos.eqb_eq.
Qed.

Lemma py_eq_refl v : hashable v = true → py_eq v v = true.
Proof.
  destruct v; simpl; try done; intros _.
  - apply String.eqb_refl.
  - apply Z.eqb_refl.
  - apply Pos.eqb_refl.
Qed.

Lemma inb_elem_of v s : inb v s = true → v ∈ s.
Proof.
  unfold inb. rewrite existsb_exists. intros (x & Hx & Heq).
  apply py_eq_eq in Heq. subst. by apply list_elem_of_In.
Qed.

Lemma elem_of_inb v s : hashable v = true → v ∈ s → inb v s = true.
Proof.
  intros Hh Hin. unfold inb. rewrite existsb_exists.
  exists v. split; [by apply list_elem_of_In | by apply py_eq_refl].
Qed.

Lemma inb_app v s t : inb v (s ++ t) = inb v s || inb v t.
Proof. unfold inb. apply existsb_app. Qed.

(** ** The policy on one object *)

Section policy.
Context (target_key target_value : string).

Local Abbreviation policy := (policy target_key target_value).

Lemma hasattr_true o name : hasattr o name = Ret true ↔ ∃ v, attrs o !! name = Some (Val v).
Proof.
  unfold hasattr, getattr.
  destruct (attrs o !! name) as [[v|[]]|]; simpl; split; try done; eauto;
    intros [? ?]; done.
Qed.

Lemma getattr_setitem o k v name :
  getattr (setitem o k v) name = if decide (k = name) then Ret v else getattr o name.
Proof.
  unfold getattr, setitem; simpl. rewrite lookup_insert.
  by destruct (decide (k = name)).
Qed.

Lemma getattr_policy_ne o name : name ≠ target_key → getattr (policy o) name = getattr o name.
Proof.
  intros Hne. unfold policy. destruct (hasattr o target_key) as [[]|]; try done.
  rewrite getattr_setitem. by destruct (decide (target_key = name)); [subst|].
Qed.

Lemma hasattr_policy o : hasattr (policy o) target_key = hasattr o target_key.
Proof.
  unfold policy. destruct (hasattr o target_key) as [[]|] eqn:E; try done.
  unfold hasattr. rewrite getattr_setitem. by rewrite decide_True.
Qed.

Lemma policy_idemp o : policy (policy o) = policy o.
Proof.
  unfold policy at 1. rewrite hasattr_policy.
  unfold policy. destruct (hasattr o target_key) as [[]|] eqn:E; try done.
  unfold setitem; simpl. by rewrite insert_insert_eq.
Qed.

Lemma member_names_policy o : member_names (policy o) = member_names o.
Proof. unfold policy. by destruct (hasattr o target_key) as [[]|]. Qed.

Lemma get_safe_attribute_policy o name :
  name ≠ target_key → get_safe_attribute (policy o) name = get_safe_attribute o name.
Proof.
  intros Hne. unfold get_safe_attribute, getattr_default.
  by rewrite getattr_policy_ne.
Qed.

Lemma policy_rewrite o : hasattr o target_key = Ret true →
  policy o = setitem o target_key (VStr target_value).
Proof. intros H. unfold policy. by rewrite H. Qed.

Lemma policy_keep o : hasattr o target_key ≠ Ret true → policy o = o.
Proof. intros H. unfold policy. by destruct (hasattr o target_key) as [[]|]. Qed.

Lemma getattr_policy_target o : hasattr o target_key = Ret true →
  getattr (policy o) target_key = Ret (VStr target_value).
Proof.
  intros H. rewrite policy_rewrite by done. rewrite getattr_setitem.
  by rewrite decide_True.
Qed.

Lemma attrs_policy_ne o k : k ≠ target_key → attrs (policy o) !! k = attrs o !! k.
Proof.
  intros Hne. unfold policy. destruct (hasattr o target_key) as [[]|]; try done.
  simpl. by rewrite lookup_insert_ne.
Qed.
End policy.

(** ** A walk is a sequence of steps *)

Section steps.
Context (SpeckleId target_key target_value : string) (max_depth : Z).

Local Abbreviation enter := (enter SpeckleId).
Local Abbreviation rewrite_field := (rewrite_field target_key target_value).
Local Abbreviation policy := (policy target_key target_value).
Local Abbreviation step := (step SpeckleId target_key target_value).
Local Abbreviation steps := (steps SpeckleId target_key target_value).

(** A walk is a sequence of steps of [R] as soon as its nested calls are, for
    any [R] that can print. *)
Section closure.
Variable R : relation world.
Hypothesis R_emit : ∀ w e, quiet e = true → R w (emit e w).
Variable recurse : value → world → option (result bool * world).
Hypothesis recurse_steps : ∀ v w r w', recurse v w = Some (r, w') → rtc R w w'.

Lemma process_list_steps items c w c' e w' :
  process_list recurse items c w = Some (c', e, w') → rtc R w w'.
Proof.
  revert c w. induction items as [|item rest IH]; intros c w; simpl.
  - intros [= <- <- <-]. apply rtc_refl.
  - destruct item; eauto.
    destruct (recurse _ w) as [[[sub|e1] w1]|] eqn:Hr; try done.
    + intros H. etrans; [by eapply recurse_steps | eauto].
    + intros [= <- <- <-]. by eapply recurse_steps.
Qed.

Lemma process_member_steps a name c w c' w' :
  process_member recurse a name c w = Some (c', w') → rtc R w w'.
Proof.
  unfold process_member.
  destruct (heap w !! a) as [o|]; [|intros [= <- <-]; apply rtc_refl].
  destruct (getattr o name) as [[| | |b|items]|e].
  1-3: intros [= <- <-]; apply rtc_refl.
  - destruct (recurse _ w) as [[[sub|e1] w1]|] eqn:Hr; try done.
    + intros [= <- <-]. by eapply recurse_steps.
    + intros [= <- <-]. eapply rtc_r; [by eapply recurse_steps|].
      by apply R_emit.
  - destruct (process_list _ _ _ _) as [[[c1 [e1|]] w1]|] eqn:Hl; try done.
    + intros [= <- <-]. eapply rtc_r; [by eapply process_list_steps|].
      by apply R_emit.
    + intros [= <- <-]. by eapply process_list_steps.
  - intros [= <- <-]. apply rtc_once. by apply R_emit.
Qed.

Lemma process_members_steps a names c w c' w' :
  process_members recurse a names c w = Some (c', w') → rtc R w w'.
Proof.
  revert c w. induction names as [|name rest IH]; intros c w; simpl.
  - intros [= <- <-]. apply rtc_refl.
  - destruct (process_member _ _ _ _ _) as [[c1 w1]|] eqn:Hm; try done.
    intros H. etrans; [by eapply process_member_steps | eauto].
Qed.

Lemma process_children_steps a c names w r w' :
  process_children recurse a c names w = Some (r, w') → rtc R w w'.
Proof.
  unfold process_children. destruct names as [names|e].
  - destruct (process_members _ _ _ _ _) as [[c1 w1]|] eqn:Hm; try done.
    intros [= <- <-]. by eapply process_members_steps.
  - intros [= <- <-]. apply rtc_once. by apply R_emit.
Qed.
End closure.

Section body.
Variable recurse : value → world → option (result bool * world).
Hypothesis recurse_steps : ∀ v w r w', recurse v w = Some (r, w') → steps w w'.

Lemma process_base_steps a o w r w' :
  heap w !! a = Some o →
  process_base SpeckleId target_key target_value recurse a o w = Some (r, w') →
  steps w w'.
Proof.
  intros Ho. unfold process_base.
  destruct (get_safe_attribute o "id") as [obj_id|e] eqn:Hid;
    [|intros [= <- <-]; apply rtc_refl].
  destruct (truthy obj_id && negb (hashable obj_id)) eqn:Hh;
    [intros [= <- <-]; apply rtc_refl|].
  destruct (truthy obj_id && inb obj_id (processed w)) eqn:Hp.
  { intros [= <- <-]. apply rtc_once. by apply step_emit. }
  assert (admitted a o obj_id w) as Hadm.
  { split_and!; try done. intros Ht. rewrite Ht in Hh, Hp. simpl in *.
    split; [by apply negb_false_iff|done]. }
  destruct (hasattr o target_key) as [[]|e] eqn:Hhas.
  - unfold getitem. destruct (getattr o target_key) as [old|e] eqn:Hget.
    + intros H. eapply rtc_l; [by eapply step_rewrite|].
      eapply process_children_steps; [apply step_emit|apply recurse_steps|done].
    + intros [= <- <-]. apply rtc_once. eapply step_enter; [done|].
      exfalso. unfold hasattr in Hhas. by rewrite Hget in Hhas; destruct e.
  - intros H. eapply rtc_l; [eapply step_enter; [done|congruence]|].
    eapply process_children_steps; [apply step_emit|apply recurse_steps|done].
  - intros [= <- <-]. apply rtc_once. eapply step_enter; [done|congruence].
Qed.

Lemma process_object_body_steps obj depth w r w' :
  process_object_body SpeckleId target_key target_value max_depth recurse obj depth w
    = Some (r, w') →
  steps w w'.
Proof.
  unfold process_object_body. destruct (depth >? max_depth).
  { intros [= <- <-]. apply rtc_once. by apply step_emit. }
  destruct obj; try (intros [= <- <-]; apply rtc_refl).
  destruct (heap w !! a) as [o|] eqn:Ho; [|intros [= <- <-]; apply rtc_refl].
  by apply process_base_steps.
Qed.
End body.

Lemma process_object_rec_steps fuel obj depth w r w' :
  process_object_rec SpeckleId target_key target_value max_depth fuel obj depth w
    = Some (r, w') →
  steps w w'.
Proof.
  revert obj depth w r w'. induction fuel as [|fuel IH]; intros obj depth w r w'; [done|].
  simpl. apply process_object_body_steps. intros v w1 r1 w1'. apply IH.
Qed.

End steps.

(** ** Visits and rewrites on the console *)

Lemma visits_app l k : visits (l ++ k) = visits l ++ visits k.
Proof. apply omap_app. Qed.

Lemma updates_app l k : updates (l ++ k) = updates l ++ updates k.
Proof. apply omap_app. Qed.

Lemma visits_quiet e : quiet e = true → visits [e] = [].
Proof. by destruct e. Qed.

Lemma updates_quiet e : quiet e = true → updates [e] = [].
Proof. by destruct e. Qed.

Lemma count_app i l k : count i (l ++ k) = (count i l + count i k)%nat.
Proof. unfold count. by rewrite filter_app, length_app. Qed.

Lemma count_addr_app a l k : count_addr a (l ++ k) = (count_addr a l + count_addr a k)%nat.
Proof. unfold count_addr. by rewrite filter_app, length_app. Qed.

Lemma filter_sublist_mono {A} (P : A → Prop) `{!∀ x, Decision (P x)} (l k : list A) :
  l `sublist_of` k → filter P l `sublist_of` filter P k.
Proof.
  induction 1 as [|x l k _ IH|x l k _ IH]; [done| |]; rewrite ?filter_cons;
    destruct (decide (P x)); auto using sublist_skip, sublist_cons.
Qed.

Lemma count_sublist i l k : l `sublist_of` k → (count i l ≤ count i k)%nat.
Proof. intros H. unfold count. apply sublist_length. by apply filter_sublist_mono. Qed.

Lemma count_addr_sublist a l k : l `sublist_of` k → (count_addr a l ≤ count_addr a k)%nat.
Proof. intros H. unfold count_addr. apply sublist_length. by apply filter_sublist_mono. Qed.

Lemma count_zero i l : i ∉ l → count i l = 0%nat.
Proof.
  intros Hni. unfold count. induction l as [|j l IH]; [done|].
  rewrite filter_cons. destruct (decide (Is_true (py_eq j i))) as [Heq|Hne].
  - apply Is_true_true, py_eq_eq in Heq. subst. exfalso. apply Hni. by left.
  - apply IH. intros Hin. apply Hni. by right.
Qed.

Lemma count_pos i l : hashable i = true → i ∈ l → (0 < count i l)%nat.
Proof.
  intros Hh Hin. unfold count. induction l as [|j l IH]; [by apply elem_of_nil in Hin|].
  rewrite filter_cons. destruct (decide (Is_true (py_eq j i))) as [Heq|Hne]; simpl; [lia|].
  apply elem_of_cons in Hin as [->|Hin]; [|by apply IH].
  exfalso. apply Hne, Is_true_true. by apply py_eq_refl.
Qed.

Lemma count_NoDup i l : NoDup l → (count i l ≤ 1)%nat.
Proof.
  intros Hnd. unfold count. induction Hnd as [|j l Hni Hnd IH]; [simpl; lia|].
  rewrite filter_cons. destruct (decide (Is_true (py_eq j i))) as [Heq|Hne]; [|done].
  apply Is_true_true, py_eq_eq in Heq. subst. simpl.
  fold (count i l). rewrite count_zero by done. lia.
Qed.

Lemma count_filter_truthy i l :
  truthy i = true → count i (filter (λ j, Is_true (truthy j)) l) = count i l.
Proof.
  intros Ht. unfold count. induction l as [|j l IH]; [done|].
  rewrite !filter_cons. destruct (decide (Is_true (truthy j))) as [Hj|Hj].
  - rewrite filter_cons. destruct (decide (Is_true (py_eq j i))); simpl; by rewrite IH.
  - destruct (decide (Is_true (py_eq j i))) as [Heq|]; [|done].
    apply Is_true_true, py_eq_eq in Heq. subst. exfalso. apply Hj. by rewrite Ht.
Qed.

(** ** The state after a walk, read off the console *)

Section ledger.
Context (SpeckleId target_key target_value : string).

Local Abbreviation steps := (steps SpeckleId target_key target_value).
Local Abbreviation step := (step SpeckleId target_key target_value).
Local Abbreviation policy := (policy target_key target_value).
Local Abbreviation tracks := (tracks SpeckleId target_key target_value).

Lemma tracks_refl w : tracks w w [].
Proof.
  split; simpl; rewrite ?app_nil_r; try done.
  - apply NoDup_nil_2.
  - by intros i ?%elem_of_nil.
  - by intros a i ?%elem_of_nil.
  - by intros a i ?%elem_of_nil.
  - by intros a i ?%elem_of_nil.
Qed.

(** The object found during a walk is the one the walk started with, with
    or without the policy applied. *)
Lemma tracks_lookup w0 w Δ a o :
  tracks w0 w Δ → heap w !! a = Some o →
  ∃ o0, heap w0 !! a = Some o0 ∧ (o = o0 ∨ o = policy o0).
Proof.
  intros Ht Ho. rewrite (tr_heap _ _ _ _ _ _ Ht) in Ho.
  destruct (decide _); destruct (heap w0 !! a) as [o0|]; simplify_eq/=; eauto.
Qed.

Lemma tracks_admitted w0 w Δ a o i :
  tracks w0 w Δ → admitted a o i w →
  (truthy i = true →
   hashable i = true ∧ (i ∉ processed w0) ∧
   i ∉ (filter (λ i, Is_true (truthy i)) (visits Δ).*2)).
Proof.
  intros Ht (_ & _ & Hadm) Hi. destruct (Hadm Hi) as [Hh Hin].
  assert (i ∉ processed w) as Hni.
  { intros Hel. apply (elem_of_inb _ _ Hh) in Hel. congruence. }
  rewrite (tr_processed _ _ _ _ _ _ Ht) in Hni. rewrite not_elem_of_app in Hni. done.
Qed.

Lemma tracks_emit w0 w Δ e : quiet e = true → tracks w0 w Δ → tracks w0 (emit e w) (Δ ++ [e]).
Proof.
  intros Hq Ht. destruct Ht.
  split; rewrite ?visits_app, ?updates_app, ?(visits_quiet e), ?(updates_quiet e), ?app_nil_r
    by done; try done.
  simpl. by rewrite tr_log0, app_assoc.
Qed.

Lemma tracks_enter w0 w Δ a o i :
  tracks w0 w Δ → admitted a o i w → hasattr o target_key ≠ Ret true →
  tracks w0 (enter SpeckleId a i w) (Δ ++ [EvProcessing a i]).
Proof.
  intros Ht Hadm Hhas.
  pose proof (tracks_admitted _ _ _ _ _ _ Ht Hadm) as Hnew.
  destruct Hadm as (Ho & Hid & _).
  destruct (tracks_lookup _ _ _ _ _ Ht Ho) as (o0 & Ho0 & Hoo).
  destruct Ht.
  split; rewrite ?visits_app, ?updates_app; simpl; rewrite ?app_nil_r,
    ?fmap_app, ?filter_app; simpl; try done.
  - unfold enter.
    destruct (truthy i), (negb (py_eq i (VStr SpeckleId))); simpl;
      by rewrite tr_log0, app_assoc.
  - unfold enter.
    destruct (truthy i), (negb (py_eq i (VStr SpeckleId))); done.
  - unfold enter. rewrite filter_cons, filter_nil.
    destruct (truthy i), (py_eq i (VStr SpeckleId)) eqn:E; simpl;
      rewrite tr_same0; rewrite ?decide_True by done; rewrite ?decide_False by done;
      by rewrite ?app_nil_r, ?app_assoc.
  - unfold enter. rewrite filter_cons, filter_nil.
    destruct (truthy i) eqn:E, (negb (py_eq i (VStr SpeckleId))); simpl;
      rewrite tr_processed0; rewrite ?decide_True by done; rewrite ?decide_False by done;
      by rewrite ?app_nil_r, ?app_assoc.
  - intros x. unfold enter.
    destruct (truthy i), (negb (py_eq i (VStr SpeckleId))); simpl; apply tr_heap0.
  - rewrite filter_cons, filter_nil. destruct (decide (Is_true (truthy i))) as [Hi|Hi].
    + apply NoDup_app. split_and!; [done| |apply NoDup_singleton].
      intros j Hj ->%list_elem_of_singleton.
      apply Is_true_true in Hi. by destruct (Hnew Hi) as (? & ? & ?).
    + by rewrite app_nil_r.
  - intros j. rewrite filter_cons, filter_nil, elem_of_app.
    intros [Hj|Hj]; [by apply tr_new0|].
    destruct (decide (Is_true (truthy i))) as [Hi|Hi]; [|by apply elem_of_nil in Hj].
    apply list_elem_of_singleton in Hj as ->. apply Is_true_true in Hi.
    by destruct (Hnew Hi) as (? & ? & ?).
  - by apply sublist_inserts_r.
  - intros x j. rewrite elem_of_app, list_elem_of_singleton.
    intros [Hj|[= -> ->]]; [by eapply tr_hashable0|]. intros Hi. by destruct (Hnew Hi).
  - intros x j. rewrite elem_of_app, list_elem_of_singleton.
    intros [Hj|[= -> ->]]; [by apply tr_visit_id0|].
    exists o0. split; [done|]. destruct Hoo as [->| ->]; eauto.
  - intros x j o1. rewrite elem_of_app, list_elem_of_singleton.
    intros [Hj|[= -> ->]]; [by apply tr_visit_update0|].
    intros ? Hh. simplify_eq. exfalso. apply Hhas.
    destruct Hoo as [->| ->]; [done|]. by rewrite hasattr_policy.
Qed.

Lemma tracks_rewrite w0 w Δ a o i old :
  tracks w0 w Δ → admitted a o i w → hasattr o target_key = Ret true →
  tracks w0 (rewrite_field target_key target_value a o i old (enter SpeckleId a i w))
    (Δ ++ [EvProcessing a i; EvUpdated a i old]).
Proof.
  intros Ht Hadm Hhas.
  pose proof (tracks_admitted _ _ _ _ _ _ Ht Hadm) as Hnew.
  destruct Hadm as (Ho & Hid & _).
  destruct (tracks_lookup _ _ _ _ _ Ht Ho) as (o0 & Ho0 & Hoo).
  assert (hasattr o0 target_key = Ret true) as Hhas0.
  { destruct Hoo as [->| ->]; [done|]. by rewrite hasattr_policy in Hhas. }
  assert (setitem o target_key (VStr target_value) = policy o0) as Hpol.
  { rewrite <-(policy_rewrite _ _ _ Hhas). destruct Hoo as [->| ->]; [done|].
    apply policy_idemp. }
  destruct Ht.
  split; rewrite ?visits_app, ?updates_app; simpl; rewrite ?app_nil_r,
    ?fmap_app, ?filter_app; simpl; try done.
  - unfold enter.
    destruct (truthy i), (negb (py_eq i (VStr SpeckleId))); simpl;
      by rewrite tr_log0, <-!app_assoc.
  - unfold enter.
    destruct (truthy i), (negb (py_eq i (VStr SpeckleId))); simpl;
      by rewrite tr_changed0, app_assoc.
  - unfold enter. rewrite filter_cons, filter_nil.
    destruct (truthy i), (py_eq i (VStr SpeckleId)) eqn:E; simpl;
      rewrite tr_same0; rewrite ?decide_True by done; rewrite ?decide_False by done;
      by rewrite ?app_nil_r, ?app_assoc.
  - unfold enter. rewrite filter_cons, filter_nil.
    destruct (truthy i) eqn:E, (negb (py_eq i (VStr SpeckleId))); simpl;
      rewrite tr_processed0; rewrite ?decide_True by done; rewrite ?decide_False by done;
      by rewrite ?app_nil_r, ?app_assoc.
  - intros x.
    assert (heap (enter SpeckleId a i w) = heap w) as Hh.
    { unfold enter. by destruct (truthy i), (negb (py_eq i (VStr SpeckleId))). }
    rewrite Hh, Hpol, lookup_insert. destruct (decide (a = x)) as [<-|Hne].
    + rewrite decide_True; [by rewrite Ho0|]. rewrite elem_of_app. right. by left.
    + rewrite tr_heap0. destruct (decide (x ∈ (updates Δ).*1)) as [Hx|Hx].
      * rewrite decide_True; [done|]. rewrite elem_of_app. by left.
      * rewrite decide_False; [done|]. rewrite elem_of_app, list_elem_of_singleton.
        intros [?|?]; done.
  - rewrite filter_cons, filter_nil. destruct (decide (Is_true (truthy i))) as [Hi|Hi].
    + apply NoDup_app. split_and!; [done| |apply NoDup_singleton].
      intros j Hj ->%list_elem_of_singleton.
      apply Is_true_true in Hi. by destruct (Hnew Hi) as (? & ? & ?).
    + by rewrite app_nil_r.
  - intros j. rewrite filter_cons, filter_nil, elem_of_app.
    intros [Hj|Hj]; [by apply tr_new0|].
    destruct (decide (Is_true (truthy i))) as [Hi|Hi]; [|by apply elem_of_nil in Hj].
    apply list_elem_of_singleton in Hj as ->. apply Is_true_true in Hi.
    by destruct (Hnew Hi) as (? & ? & ?).
  - by apply sublist_app.
  - intros x j. rewrite elem_of_app, list_elem_of_singleton.
    intros [Hj|[= -> ->]]; [by eapply tr_hashable0|]. intros Hi. by destruct (Hnew Hi).
  - intros x j. rewrite elem_of_app, list_elem_of_singleton.
    intros [Hj|[= -> ->]]; [by apply tr_visit_id0|].
    exists o0. split; [done|]. destruct Hoo as [->| ->]; eauto.
  - intros x j. rewrite elem_of_app, list_elem_of_singleton.
    intros [Hj|[= -> ->]]; [by eapply tr_update_has0|]. eauto.
  - intros x j o1. rewrite !elem_of_app, !list_elem_of_singleton.
    intros [Hj|[= -> ->]]; [|by right]. intros. left. by eapply tr_visit_update0.
Qed.

Lemma steps_tracks w0 w : steps w0 w → ∃ Δ, tracks w0 w Δ.
Proof.
  revert w. apply rtc_ind_r.
  - exists []. apply tracks_refl.
  - intros w w' _ Hs [Δ Ht].
    destruct Hs as [w e Hq|w a o i Hadm Hhas|w a o i old Hadm Hhas].
    + exists (Δ ++ [e]). by apply tracks_emit.
    + exists (Δ ++ [EvProcessing a i]). by eapply tracks_enter.
    + exists (Δ ++ [EvProcessing a i; EvUpdated a i old]). by eapply tracks_rewrite.
Qed.

End ledger.

(** ** Termination: the depth ceiling bounds the nesting of calls *)

Section termination.
Context (SpeckleId target_key target_value : string) (max_depth : Z).

Local Abbreviation process_object_rec :=
  (process_object_rec SpeckleId target_key target_value max_depth).
Local Abbreviation process_object_body :=
  (process_object_body SpeckleId target_key target_value max_depth).
Local Abbreviation process_base := (process_base SpeckleId target_key target_value).

Section total.
Variable recurse : value → world → option (result bool * world).
Hypothesis recurse_total : ∀ v w, is_Some (recurse v w).

Lemma process_list_total items c w : is_Some (process_list recurse items c w).
Proof.
  revert c w. induction items as [|item rest IH]; intros c w; simpl; [done|].
  destruct item; try apply IH.
  destruct (recurse_total (VBase a) w) as [[[sub|e] w1] ->]; [apply IH|done].
Qed.

Lemma process_member_total a name c w : is_Some (process_member recurse a name c w).
Proof.
  unfold process_member. destruct (heap w !! a) as [o|]; [|done].
  destruct (getattr o name) as [[| | |b|items]|e]; try done.
  - by destruct (recurse_total (VBase b) w) as [[[sub|e] w1] ->].
  - by destruct (process_list_total items c w) as [[[c1 [e|]] w1] ->].
Qed.

Lemma process_members_total a names c w : is_Some (process_members recurse a names c w).
Proof.
  revert c w. induction names as [|name rest IH]; intros c w; simpl; [done|].
  destruct (process_member_total a name c w) as [[c1 w1] ->]. apply IH.
Qed.

Lemma process_children_total a c names w : is_Some (process_children recurse a c names w).
Proof.
  unfold process_children. destruct names as [names|e]; [|done].
  by destruct (process_members_total a names c w) as [[c1 w1] ->].
Qed.

Lemma process_base_total a o w : is_Some (process_base recurse a o w).
Proof.
  unfold process_base. destruct (get_safe_attribute o "id") as [obj_id|e]; [|done].
  destruct (truthy obj_id && negb (hashable obj_id)); [done|].
  destruct (truthy obj_id && inb obj_id (processed w)); [done|].
  destruct (hasattr o target_key) as [[]|e]; try done.
  - destruct (getitem o target_key); [|done]. apply process_children_total.
  - apply process_children_total.
Qed.
End total.

Lemma process_object_body_total recurse obj depth w :
  (depth ≤ max_depth → ∀ v w, is_Some (recurse v w)) →
  is_Some (process_object_body recurse obj depth w).
Proof.
  intros Hrec. unfold process_object_body.
  destruct (depth >? max_depth) eqn:Hd; [done|].
  destruct obj; try done. destruct (heap w !! a); [|done].
  apply process_base_total, Hrec. lia.
Qed.

Lemma process_object_rec_total fuel obj depth w :
  (Z.to_nat (max_depth - depth + 1) < fuel)%nat →
  is_Some (process_object_rec fuel obj depth w).
Proof.
  revert obj depth w. induction fuel as [|fuel IH]; intros obj depth w Hf; [lia|].
  simpl. apply process_object_body_total. intros Hd v w1. apply IH. lia.
Qed.

Section mono.
Variables recurse recurse' : value → world → option (result bool * world).
Hypothesis recurse_le : ∀ v w x, recurse v w = Some x → recurse' v w = Some x.

Lemma process_list_mono items c w x :
  process_list recurse items c w = Some x → process_list recurse' items c w = Some x.
Proof.
  revert c w. induction items as [|item rest IH]; intros c w; simpl; [done|].
  destruct item; try apply IH.
  destruct (recurse (VBase a) w) as [[[sub|e] w1]|] eqn:Hr; [| |done];
    rewrite (recurse_le _ _ _ Hr); [apply IH|done].
Qed.

Lemma process_member_mono a name c w x :
  process_member recurse a name c w = Some x → process_member recurse' a name c w = Some x.
Proof.
  unfold process_member. destruct (heap w !! a) as [o|]; [|done].
  destruct (getattr o name) as [[| | |b|items]|e]; try done.
  - destruct (recurse (VBase b) w) as [[[sub|e] w1]|] eqn:Hr; [| |done];
      by rewrite (recurse_le _ _ _ Hr).
  - destruct (process_list recurse items c w) as [[[c1 [e|]] w1]|] eqn:Hl; [| |done];
      by rewrite (process_list_mono _ _ _ _ Hl).
Qed.

Lemma process_members_mono a names c w x :
  process_members recurse a names c w = Some x →
  process_members recurse' a names c w = Some x.
Proof.
  revert c w. induction names as [|name rest IH]; intros c w; simpl; [done|].
  destruct (process_member recurse a name c w) as [[c1 w1]|] eqn:Hm; [|done].
  rewrite (process_member_mono _ _ _ _ _ Hm). apply IH.
Qed.

Lemma process_object_body_mono obj depth w x :
  process_object_body recurse obj depth w = Some x →
  process_object_body recurse' obj depth w = Some x.
Proof.
  unfold process_object_body. destruct (depth >? max_depth); [done|].
  destruct obj; try done. destruct (heap w !! a) as [o|]; [|done].
  unfold process_base. destruct (get_safe_attribute o "id") as [obj_id|e]; [|done].
  destruct (truthy obj_id && negb (hashable obj_id)); [done|].
  destruct (truthy obj_id && inb obj_id (processed w)); [done|].
  assert (∀ c names w, process_children recurse a c names w = Some x →
                       process_children recurse' a c names w = Some x) as Hc.
  { intros c [names|e] w1; [|done]. unfold process_children.
    destruct (process_members recurse a names c w1) as [[c1 w2]|] eqn:Hm; [|done].
    by rewrite (process_members_mono _ _ _ _ _ Hm). }
  destruct (hasattr o target_key) as [[]|e]; try done; [|apply Hc].
  destruct (getitem o target_key); [apply Hc|done].
Qed.
End mono.

Lemma process_object_rec_mono fuel fuel' obj depth w x :
  (fuel ≤ fuel')%nat →
  process_object_rec fuel obj depth w = Some x →
  process_object_rec fuel' obj depth w = Some x.
Proof.
  revert fuel' obj depth w x. induction fuel as [|fuel IH]; intros [|fuel'] obj depth w x Hle;
    try done; [lia|].
  simpl. apply process_object_body_mono. intros v w1 x1. apply IH. lia.
Qed.

End termination.

(** ** Properties of [get_safe_attribute] and of the walk *)

(** C9, as amended. [get_safe_attribute] never raises: it returns the value
    of a slot that holds one and [None] in every other case, so that a
    missing field and a field that holds [None] give the same result. It is
    the membership test [hasattr] that tells the two apart, and that one lets
    through whatever a getter raises other than [AttributeError]. *)
Theorem get_safe_attribute_never_raises (o : Base) (attr : string) :
  get_safe_attribute o attr
    = Ret (match attrs o !! attr with Some (Val v) => v | _ => VNone end) ∧
  hasattr o attr
    = match attrs o !! attr with
      | Some (Val _) => Ret true
      | Some (Raises AttributeError) | None => Ret false
      | Some (Raises e) => Exc e
      end.
Proof.
  unfold get_safe_attribute, getattr_default, hasattr, getattr.
  by destruct (attrs o !! attr) as [[v|[]]|].
Qed.

(** C9 as stated fails: an object without the field ["w"] and an object whose
    field ["w"] holds [None] are read alike. *)
Lemma get_safe_attribute_absent_like_none :
  let absent := obj_of [] [] in
  let null := obj_of [("w", Val VNone)] ["w"] in
  attrs absent !! "w" = None ∧ attrs null !! "w" = Some (Val VNone) ∧
  get_safe_attribute absent "w" = get_safe_attribute null "w".
Proof. done. Qed.

Section claims.
Context (SpeckleId target_key target_value : string) (max_depth : Z).

Local Abbreviation walk := (process_object SpeckleId target_key target_value max_depth).
Local Abbreviation tracks := (tracks SpeckleId target_key target_value).
Local Abbreviation policy := (policy target_key target_value).

Lemma process_object_rec_tracks fuel obj depth w r w' :
  process_object_rec SpeckleId target_key target_value max_depth fuel obj depth w
    = Some (r, w') →
  ∃ Δ, tracks w w' Δ.
Proof. intros H. eapply steps_tracks, process_object_rec_steps, H. Qed.

Lemma walk_tracks obj depth P w :
  ∃ r w' Δ, walk obj depth P w = Some (r, w') ∧
            tracks (with_processed (default [] P) w) w' Δ.
Proof.
  unfold process_object.
  destruct (process_object_rec_total SpeckleId target_key target_value max_depth
              (enough_fuel max_depth depth) obj depth (with_processed (default [] P) w))
    as [[r w'] Hrun]; [unfold enough_fuel; lia|].
  destruct (process_object_rec_tracks _ _ _ _ _ _ Hrun) as [Δ Ht]. eauto.
Qed.

Lemma count_addr_count (a : addr) (i : value) (l : list (addr * value)) :
  (∀ p, p ∈ l → p.1 = a → p.2 = i ∧ hashable i = true) →
  (count_addr a l ≤ count i l.*2)%nat.
Proof.
  unfold count_addr, count. induction l as [|p l IH]; intros Hl; [done|].
  rewrite fmap_cons, !filter_cons.
  assert (length (filter (λ p, p.1 = a) l) ≤ length (filter (λ j, Is_true (py_eq j i)) l.*2))%nat
    as Hle.
  { apply IH. intros q Hq. apply Hl. by right. }
  destruct (decide (p.1 = a)) as [Hp|Hp].
  - destruct (Hl p) as [-> Hh]; [by left|done|].
    rewrite decide_True by (by apply Is_true_true, py_eq_refl). simpl. lia.
  - destruct (decide _); simpl; lia.
Qed.

Lemma tracks_count_updates w0 w' Δ i :
  tracks w0 w' Δ → truthy i = true → (count i (updates Δ).*2 ≤ 1)%nat.
Proof.
  intros Ht Hi.
  etrans; [apply count_sublist, fmap_sublist, (tr_sub _ _ _ _ _ _ Ht)|].
  rewrite <-count_filter_truthy by done. apply count_NoDup, (tr_fresh _ _ _ _ _ _ Ht).
Qed.




(** *** The depth ceiling *)


Lemma quiet_steps_frame w w' :
  rtc quiet_step w w' →
  ∃ Δ, w' = mkWorld (heap w) (processed w) (changed_ids w) (same_ids w) (log w ++ Δ) ∧
       visits Δ = [] ∧ updates Δ = [].
Proof.
  revert w'. apply rtc_ind_r.
  - exists []. rewrite app_nil_r. by destruct w.
  - intros w1 w2 _ (e & Hq & ->) (Δ & -> & Hv & Hu). exists (Δ ++ [e]).
    rewrite visits_app, updates_app, Hv, Hu, visits_quiet, updates_quiet by done.
    split; [|done]. unfold emit; simpl. by rewrite app_assoc.
Qed.

Lemma enter_heap a i w : heap (enter SpeckleId a i w) = heap w.
Proof. unfold enter. by destruct (truthy i), (negb _). Qed.

Lemma enter_changed_ids a i w : changed_ids (enter SpeckleId a i w) = changed_ids w.
Proof. unfold enter. by destruct (truthy i), (negb _). Qed.

Lemma enter_log a i w : log (enter SpeckleId a i w) = log w ++ [EvProcessing a i].
Proof. unfold enter. by destruct (truthy i), (negb _). Qed.

Lemma beyond_ceiling fuel obj depth w :
  max_depth < depth →
  process_object_rec SpeckleId target_key target_value max_depth (S fuel) obj depth w
    = Some (Ret false, emit (EvMaxDepth depth) w).
Proof.
  intros Hd. simpl. unfold process_object_body.
  by destruct (Z.gtb_spec depth max_depth); [|lia].
Qed.


(** *** Errors *)

Lemma process_children_ret recurse a c names w r w' :
  process_children recurse a c names w = Some (r, w') → ∃ c', r = Ret c'.
Proof.
  unfold process_children. destruct names as [names|e].
  - destruct (process_members _ _ _ _ _) as [[c1 w1]|]; [|done]. intros [= <- <-]. eauto.
  - intros [= <- <-]. eauto.
Qed.



(** *** Cycles *)

Lemma tracks_count_addr w0 w' Δ a o i :
  target_key ≠ "id" → tracks w0 w' Δ → heap w0 !! a = Some o →
  get_safe_attribute o "id" = Ret i → truthy i = true →
  (count_addr a (updates Δ) ≤ count_addr a (visits Δ))%nat ∧
  (count_addr a (visits Δ) ≤ 1)%nat.
Proof.
  intros Hid Ht Ho Hi Htr. split; [apply count_addr_sublist, Ht|].
  etrans; [apply (count_addr_count a i)|].
  - intros [a' j] Hin; simpl; intros ->.
    destruct (tr_visit_id _ _ _ _ _ _ Ht _ _ Hin) as (o0 & Ho0 & Hj).
    rewrite get_safe_attribute_policy in Hj by done.
    assert (j = i) as -> by (destruct Hj; congruence).
    split; [done|]. by eapply (tr_hashable _ _ _ _ _ _ Ht).
  - rewrite <-count_filter_truthy by done. apply count_NoDup, Ht.
Qed.


End claims.








(** ** Walking a graph that was walked before *)

Section rerun.
Context (SpeckleId target_key target_value : string) (max_depth : Z).
Hypothesis target_not_id : target_key ≠ "id".

Local Abbreviation policy := (policy target_key target_value).
Local Abbreviation process_object_rec :=
  (process_object_rec SpeckleId target_key target_value max_depth).
Local Abbreviation process_base := (process_base SpeckleId target_key target_value).
Local Abbreviation ahead := (ahead target_key target_value).
Local Abbreviation lockstep := (lockstep target_key target_value).

Lemma lockstep_refl w v : ahead w v → lockstep w w v v.
Proof. intros H. split_and!; [done|done|]. exists [], []. by rewrite !app_nil_r. Qed.

Lemma lockstep_trans w w1 w2 v v1 v2 :
  lockstep w w1 v v1 → lockstep w1 w2 v1 v2 → lockstep w w2 v v2.
Proof.
  intros (_ & He1 & Δw1 & Δv1 & Hw1 & Hv1 & Hvis1 & Hupd1)
         (Ha & He2 & Δw2 & Δv2 & Hw2 & Hv2 & Hvis2 & Hupd2).
  split_and!; [done|by auto|].
  exists (Δw1 ++ Δw2), (Δv1 ++ Δv2).
  split_and!; [by rewrite Hw2, Hw1, <-app_assoc|by rewrite Hv2, Hv1, <-app_assoc|
               by rewrite !visits_app, Hvis1, Hvis2|by rewrite !updates_app, Hupd1, Hupd2].
Qed.

Lemma lockstep_emit w w' v v' e :
  quiet e = true → lockstep w w' v v' → lockstep w (emit e w') v (emit e v').
Proof.
  intros Hq (Ha & He & Δw & Δv & Hw & Hv & Hvis & Hupd).
  split_and!; [done|done|].
  exists (Δw ++ [e]), (Δv ++ [e]). simpl.
  split_and!; [by rewrite Hw, <-app_assoc|by rewrite Hv, <-app_assoc|
               by rewrite !visits_app, Hvis|by rewrite !updates_app, Hupd].
Qed.

Section loops.
Variable recurse : value → world → option (result bool * world).
Hypothesis recurse_lockstep : ∀ x w v r w',
  recurse x w = Some (r, w') → ahead w v →
  ∃ v', recurse x v = Some (r, v') ∧ lockstep w w' v v'.

Lemma process_list_lockstep items c w v c' e w' :
  process_list recurse items c w = Some (c', e, w') → ahead w v →
  ∃ v', process_list recurse items c v = Some (c', e, v') ∧ lockstep w w' v v'.
Proof.
  revert c w v. induction items as [|item rest IH]; intros c w v; simpl.
  - intros [= <- <- <-] Ha. exists v. split; [done|by apply lockstep_refl].
  - destruct item; eauto.
    destruct (recurse _ w) as [[[sub|e1] w1]|] eqn:Hr; try done.
    + intros Hl Ha. destruct (recurse_lockstep _ _ _ _ _ Hr Ha) as (v1 & -> & Hl1).
      destruct (IH _ _ v1 Hl) as (v' & Hv' & Hl2); [apply Hl1|].
      exists v'. split; [done|]. by eapply lockstep_trans.
    + intros [= <- <- <-] Ha.
      destruct (recurse_lockstep _ _ _ _ _ Hr Ha) as (v1 & -> & Hl1). eauto.
Qed.

Lemma process_member_lockstep a name c w v c' w' :
  process_member recurse a name c w = Some (c', w') → ahead w v →
  heap v !! a = heap w !! a →
  ∃ v', process_member recurse a name c v = Some (c', v') ∧ lockstep w w' v v'.
Proof.
  unfold process_member. intros Hm Ha ->.
  destruct (heap w !! a) as [o|].
  2:{ injection Hm as <- <-. exists v. split; [done|by apply lockstep_refl]. }
  destruct (getattr o name) as [[| | |b|items]|e].
  1-3: injection Hm as <- <-; exists v; split; [done|by apply lockstep_refl].
  - destruct (recurse _ w) as [[[sub|e1] w1]|] eqn:Hr; try done;
      destruct (recurse_lockstep _ _ _ _ _ Hr Ha) as (v1 & -> & Hl1);
      injection Hm as <- <-; eexists; (split; [done|]); [done|].
    by apply lockstep_emit.
  - destruct (process_list _ _ _ _) as [[[c1 [e1|]] w1]|] eqn:Hl; try done;
      destruct (process_list_lockstep _ _ _ _ _ _ _ Hl Ha) as (v1 & -> & Hl1);
      injection Hm as <- <-; eexists; (split; [done|]); [|done].
    by apply lockstep_emit.
  - injection Hm as <- <-. eexists. split; [done|].
    by apply lockstep_emit, lockstep_refl.
Qed.

Lemma process_members_lockstep a names c w v c' w' :
  process_members recurse a names c w = Some (c', w') → ahead w v →
  heap v !! a = heap w !! a →
  ∃ v', process_members recurse a names c v = Some (c', v') ∧ lockstep w w' v v'.
Proof.
  revert c w v. induction names as [|name rest IH]; intros c w v; simpl.
  - intros [= <- <-] Ha _. exists v. split; [done|by apply lockstep_refl].
  - destruct (process_member _ _ _ _ w) as [[c1 w1]|] eqn:Hm; try done.
    intros Hms Ha Heq.
    destruct (process_member_lockstep _ _ _ _ _ _ _ Hm Ha Heq) as (v1 & -> & Hl1).
    destruct (IH _ _ v1 Hms) as (v' & Hv' & Hl2); [apply Hl1|by apply Hl1|].
    exists v'. split; [done|]. by eapply lockstep_trans.
Qed.

Lemma process_children_lockstep a c names w v r w' :
  process_children recurse a c names w = Some (r, w') → ahead w v →
  heap v !! a = heap w !! a →
  ∃ v', process_children recurse a c names v = Some (r, v') ∧ lockstep w w' v v'.
Proof.
  unfold process_children. destruct names as [names|e].
  - destruct (process_members _ _ _ _ w) as [[c1 w1]|] eqn:Hm; try done.
    intros [= <- <-] Ha Heq.
    destruct (process_members_lockstep _ _ _ _ _ _ _ Hm Ha Heq) as (v1 & -> & Hl1). eauto.
  - intros [= <- <-] Ha Heq. eexists. split; [done|].
    by apply lockstep_emit, lockstep_refl.
Qed.
End loops.

Lemma ahead_same_id o o' :
  o' = o ∨ o' = policy o → get_safe_attribute o' "id" = get_safe_attribute o "id".
Proof. intros [->| ->]; [done|]. by apply get_safe_attribute_policy. Qed.

Lemma ahead_same_hasattr o o' :
  o' = o ∨ o' = policy o → hasattr o' target_key = hasattr o target_key.
Proof. intros [->| ->]; [done|]. by apply hasattr_policy. Qed.

Lemma ahead_same_names o o' :
  o' = o ∨ o' = policy o → member_names o' = member_names o.
Proof. intros [->| ->]; [done|]. by apply member_names_policy. Qed.

Lemma ahead_lookup w v a o :
  ahead w v → heap w !! a = Some o →
  ∃ o', heap v !! a = Some o' ∧ (o' = o ∨ o' = policy o).
Proof. intros [_ Hh] Ho. destruct (Hh a) as [Hv|Hv]; rewrite Ho in Hv; eauto. Qed.

Lemma lockstep_enter w v a i :
  ahead w v → lockstep w (enter SpeckleId a i w) v (enter SpeckleId a i v).
Proof.
  intros [Hp Hh]. split_and!.
  - split; [|intros x; by rewrite !enter_heap].
    unfold enter. by destruct (truthy i), (negb _); simpl; rewrite Hp.
  - intros x. by rewrite !enter_heap.
  - exists [EvProcessing a i], [EvProcessing a i]. by rewrite !enter_log.
Qed.

Lemma lockstep_rewrite w v a o o' i old old' :
  ahead w v → heap w !! a = Some o → heap v !! a = Some o' → o' = o ∨ o' = policy o →
  hasattr o target_key = Ret true →
  let w3 := rewrite_field target_key target_value a o i old (enter SpeckleId a i w) in
  let v3 := rewrite_field target_key target_value a o' i old' (enter SpeckleId a i v) in
  lockstep w w3 v v3 ∧ heap v3 !! a = heap w3 !! a.
Proof.
  intros Ha Ho Ho' Hoo Hhas w3 v3.
  assert (setitem o' target_key (VStr target_value) = setitem o target_key (VStr target_value))
    as Hset.
  { destruct Hoo as [->| ->]; [done|]. rewrite policy_rewrite by done.
    unfold setitem; simpl. by rewrite insert_insert_eq. }
  assert (∀ x, heap v3 !! x = <[a := setitem o target_key (VStr target_value)]> (heap v) !! x)
    as Hv3.
  { intros x. subst v3. simpl. by rewrite enter_heap, Hset. }
  assert (∀ x, heap w3 !! x = <[a := setitem o target_key (VStr target_value)]> (heap w) !! x)
    as Hw3.
  { intros x. subst w3. simpl. by rewrite enter_heap. }
  split; [|by rewrite Hv3, Hw3, !lookup_insert_eq].
  destruct Ha as [Hp Hh]. split_and!.
  - split.
    + subst w3 v3. unfold enter. by destruct (truthy i), (negb _); simpl; rewrite Hp.
    + intros x. rewrite Hv3, Hw3, !lookup_insert.
      destruct (decide (a = x)); [by left|apply Hh].
  - intros x. rewrite Hv3, Hw3, !lookup_insert. by destruct (decide (a = x)).
  - exists [EvProcessing a i; EvUpdated a i old], [EvProcessing a i; EvUpdated a i old'].
    subst w3 v3. simpl. by rewrite !enter_log, <-!app_assoc.
Qed.

Section body.
Variable recurse : value → world → option (result bool * world).
Hypothesis recurse_lockstep : ∀ x w v r w',
  recurse x w = Some (r, w') → ahead w v →
  ∃ v', recurse x v = Some (r, v') ∧ lockstep w w' v v'.

Lemma process_base_lockstep a o o' w v r w' :
  heap w !! a = Some o → heap v !! a = Some o' → o' = o ∨ o' = policy o → ahead w v →
  process_base recurse a o w = Some (r, w') →
  ∃ v', process_base recurse a o' v = Some (r, v') ∧ lockstep w w' v v'.
Proof.
  intros Ho Ho' Hoo Ha. unfold process_base.
  rewrite (ahead_same_id _ _ Hoo), (ahead_same_hasattr _ _ Hoo), (ahead_same_names _ _ Hoo).
  destruct Ha as [Hp Hh]. rewrite Hp. pose proof (conj Hp Hh : ahead w v) as Ha.
  destruct (get_safe_attribute o "id") as [i|e].
  2:{ intros [= <- <-]. exists v. split; [done|by apply lockstep_refl]. }
  destruct (truthy i && negb (hashable i)).
  { intros [= <- <-]. exists v. split; [done|by apply lockstep_refl]. }
  destruct (truthy i && inb i (processed w)).
  { intros [= <- <-]. eexists. split; [done|]. by apply lockstep_emit, lockstep_refl. }
  destruct (hasattr o target_key) as [[]|e] eqn:Hhas.
  - unfold getitem.
    assert (∃ old', getattr o' target_key = Ret old') as [old' ->].
    { rewrite <-(ahead_same_hasattr _ _ Hoo) in Hhas. unfold hasattr in Hhas.
      destruct (getattr o' target_key) as [|[]]; by eauto. }
    destruct (getattr o target_key) as [old|e] eqn:Hget;
      [|by unfold hasattr in Hhas; rewrite Hget in Hhas; destruct e].
    intros Hc.
    destruct (lockstep_rewrite w v a o o' i old old' Ha Ho Ho' Hoo Hhas) as [Hl Heq].
    destruct (process_children_lockstep recurse recurse_lockstep _ _ _ _ _ _ _ Hc
                (proj1 Hl) Heq) as (v' & Hv' & Hl2).
    exists v'. split; [done|]. by eapply lockstep_trans.
  - intros Hc.
    assert (o' = o) as ->.
    { destruct Hoo as [->| ->]; [done|]. apply policy_keep. congruence. }
    pose proof (lockstep_enter w v a i Ha) as Hl.
    destruct (process_children_lockstep recurse recurse_lockstep _ _ _ _ _ _ _ Hc
                (proj1 Hl)) as (v' & Hv' & Hl2).
    { rewrite !enter_heap. congruence. }
    exists v'. split; [done|]. by eapply lockstep_trans.
  - intros [= <- <-]. eexists. split; [done|]. by apply lockstep_enter.
Qed.

Lemma process_object_body_lockstep obj depth w v r w' :
  process_object_body SpeckleId target_key target_value max_depth recurse obj depth w
    = Some (r, w') →
  ahead w v →
  ∃ v', process_object_body SpeckleId target_key target_value max_depth recurse obj depth v
          = Some (r, v') ∧ lockstep w w' v v'.
Proof.
  unfold process_object_body. intros Hb Ha. destruct (depth >? max_depth).
  { injection Hb as <- <-. eexists. split; [done|]. by apply lockstep_emit, lockstep_refl. }
  destruct obj; try (injection Hb as <- <-; exists v; split; [done|by apply lockstep_refl]).
  destruct (heap w !! a) as [o|] eqn:Ho.
  - destruct (ahead_lookup _ _ _ _ Ha Ho) as (o' & Ho' & Hoo). rewrite Ho'.
    by eapply process_base_lockstep.
  - destruct Ha as [Hp Hh]. destruct (Hh a) as [Hv|Hv]; rewrite Ho in Hv; rewrite Hv;
      injection Hb as <- <-; exists v; (split; [done|by apply lockstep_refl]).
Qed.
End body.

Lemma process_object_rec_lockstep fuel obj depth w v r w' :
  process_object_rec fuel obj depth w = Some (r, w') → ahead w v →
  ∃ v', process_object_rec fuel obj depth v = Some (r, v') ∧ lockstep w w' v v'.
Proof.
  revert obj depth w v r w'. induction fuel as [|fuel IH]; intros obj depth w v r w'; [done|].
  simpl. apply process_object_body_lockstep. intros x w1 v1 r1 w1'. apply IH.
Qed.


End rerun.



(** ** The graph the walk reads, and what it covers *)


Lemma inb_mono i (s t : list value) : inb i s = true → s ⊆ t → inb i t = true.
Proof.
  unfold inb. rewrite !existsb_exists. intros (x & Hx & Heq) Hst.
  exists x. split; [|done]. by apply list_elem_of_In, Hst, list_elem_of_In.
Qed.

Lemma within_mono g n (s t : list value) a :
  within g n s a = true → s ⊆ t → within g n t a = true.
Proof.
  revert s t a. induction n as [|n IH]; intros s t a; simpl;
    destruct (g !! a) as [o|]; try done.
  - destruct (truthy (id_of o) && inb (id_of o) s) eqn:E; [|done].
    intros _ Hst. apply andb_true_iff in E as [-> Hin]. by rewrite (inb_mono _ _ _ Hin Hst).
  - intros Hw Hst. destruct (truthy (id_of o) && inb (id_of o) t) eqn:Et; [done|].
    destruct (truthy (id_of o) && inb (id_of o) s) eqn:Es.
    { apply andb_true_iff in Es as [Htr Hin].
      by rewrite Htr, (inb_mono _ _ _ Hin Hst) in Et. }
    rewrite forallb_forall in *. intros x Hx. eapply IH; [by apply Hw|].
    destruct (truthy (id_of o)); [|done]. intros y [->|Hy]%elem_of_cons; [by left|].
    right. by apply Hst.
Qed.

Section coverage.
Context (SpeckleId target_key target_value : string) (max_depth : Z).
Hypothesis target_not_id : target_key ≠ "id".
Variable g : gmap addr Base.
Hypothesis calm_g : calm target_key g.
Hypothesis ids_g : ids_identify g.

Lemma g_calm a o :
  g !! a = Some o →
  (∃ b, hasattr o target_key = Ret b) ∧ (truthy (id_of o) = true → hashable (id_of o) = true).
Proof.
  intros Hg. pose proof (calm_g _ _ Hg) as Hc. unfold calm_obj in Hc. simpl in Hc.
  apply andb_true_iff in Hc as [Hh Hi]. split.
  - destruct (hasattr o target_key); [by eauto|done].
  - intros Ht. by rewrite Ht in Hi.
Qed.

Lemma g_ids a b oa ob :
  g !! a = Some oa → g !! b = Some ob →
  truthy (id_of oa) = true → id_of oa = id_of ob → a = b.
Proof.
  intros Ha Hb Ht Heq. apply (ids_g _ _ Ha _ _ Hb). rewrite Ht, <-Heq. simpl.
  apply py_eq_refl. by apply (g_calm _ _ Ha).
Qed.

Local Abbreviation policy := (policy target_key target_value).
Local Abbreviation steps := (steps SpeckleId target_key target_value).
Local Abbreviation tracks := (tracks SpeckleId target_key target_value).
Local Abbreviation agrees := (agrees target_key target_value g).
Local Abbreviation settled := (settled g).
Local Abbreviation closed_except := (closed_except g).
Local Abbreviation call_ok := (call_ok target_key target_value max_depth g).

Lemma settled_mono P P' a : settled P a → P ⊆ P' → settled P' a.
Proof.
  intros Hs Hsub. induction Hs as [a o Ho Ht Hin|a o Ho Ht _ IH|a Ha].
  - eapply settled_seen; eauto.
  - eapply settled_idless; eauto.
  - by apply settled_dangling.
Qed.

Lemma steps_agrees w w' : steps w w' → agrees w → agrees w'.
Proof.
  intros [Δ Ht]%steps_tracks Hag. unfold agrees in *. rewrite <-Hag.
  apply map_eq. intros x. rewrite !lookup_fmap, (tr_heap _ _ _ _ _ _ Ht).
  destruct (decide _); [|done]. destruct (heap w !! x); simpl; [|done].
  by rewrite policy_idemp.
Qed.

Lemma steps_processed w w' : steps w w' → processed w ⊆ processed w'.
Proof.
  intros [Δ Ht]%steps_tracks x Hx. rewrite (tr_processed _ _ _ _ _ _ Ht).
  apply elem_of_app. by left.
Qed.

Lemma steps_fixpoint w w' a o :
  steps w w' → heap w !! a = Some o → policy o = o → heap w' !! a = Some o.
Proof.
  intros [Δ Ht]%steps_tracks Ho Hfix. rewrite (tr_heap _ _ _ _ _ _ Ht), Ho.
  destruct (decide _); simpl; by rewrite ?Hfix.
Qed.

Lemma agrees_lookup w a o : agrees w → heap w !! a = Some o → g !! a = Some (policy o).
Proof. intros <- Ho. by rewrite lookup_fmap, Ho. Qed.

Lemma agrees_lookup_None w a : agrees w → heap w !! a = None → g !! a = None.
Proof. intros <- Ho. by rewrite lookup_fmap, Ho. Qed.

Section loops.
Variable depth : Z.
Variable recurse : value → world → option (result bool * world).
Hypothesis recurse_steps : ∀ v w r w', recurse v w = Some (r, w') → steps w w'.
Hypothesis recurse_ok : call_ok (depth + 1) recurse.

Local Abbreviation budget := (Z.to_nat (max_depth - (depth + 1) + 1)).

Lemma process_list_covers items c w c' e w' G :
  process_list recurse items c w = Some (c', e, w') → agrees w →
  (∀ x, x ∈ bases items → within g budget (processed w) x = true) →
  closed_except G (processed w) →
  e = None ∧ (∀ x, x ∈ bases items → settled (processed w') x) ∧
  closed_except G (processed w').
Proof.
  revert c w. induction items as [|item rest IH]; intros c w; simpl.
  - intros [= <- <- <-] _ _ Hcl. split_and!; [done| |done]. by intros x ?%elem_of_nil.
  - destruct item as [| | |b|]; try by apply IH.
    destruct (recurse (VBase b) w) as [[r w1]|] eqn:Hr; [|done].
    intros Hl Hag Hin Hcl.
    destruct (recurse_ok _ _ _ _ G Hr Hag) as ([sub ->] & Hset & Hcl1);
      [apply Hin; by left|done|].
    pose proof (recurse_steps _ _ _ _ Hr) as Hst.
    destruct (IH _ _ Hl) as (He & Hrest & Hcl2); [by eapply steps_agrees| |done|].
    { intros x Hx. eapply within_mono; [apply Hin; by right|by apply steps_processed]. }
    split_and!; [done| |done].
    intros x [->|Hx]%elem_of_cons; [|by apply Hrest].
    eapply settled_mono; [done|]. apply steps_processed.
    apply (process_list_steps _ recurse recurse_steps _ _ _ _ _ _ Hl).
Qed.
Lemma member_steps a name c w c' w' :
  process_member recurse a name c w = Some (c', w') → steps w w'.
Proof. apply process_member_steps; [intros ???; by apply step_emit|apply recurse_steps]. Qed.

Lemma members_steps a names c w c' w' :
  process_members recurse a names c w = Some (c', w') → steps w w'.
Proof. apply process_members_steps; [intros ???; by apply step_emit|apply recurse_steps]. Qed.

Lemma process_member_covers a og name c w c' w' G :
  process_member recurse a name c w = Some (c', w') → heap w !! a = Some og → agrees w →
  (∀ x, x ∈ member_kids og name → within g budget (processed w) x = true) →
  closed_except G (processed w) →
  (∀ x, x ∈ member_kids og name → settled (processed w') x) ∧
  closed_except G (processed w').
Proof.
  unfold process_member, member_kids. intros Hm Ho Hag. rewrite Ho in Hm.
  destruct (getattr og name) as [[| | |b|items]|e].
  1-3: injection Hm as <- <-; intros _ Hcl; split; [by intros x ?%elem_of_nil|done].
  - intros Hin Hcl. destruct (recurse (VBase b) w) as [[r w1]|] eqn:Hr; [|done].
    destruct (recurse_ok _ _ _ _ G Hr Hag) as ([sub ->] & Hset & Hcl1);
      [apply Hin; by left|done|].
    injection Hm as <- <-. split; [|done]. by intros x ->%list_elem_of_singleton.
  - intros Hin Hcl.
    destruct (process_list recurse items c w) as [[[c1 e] w1]|] eqn:Hl; [|done].
    destruct (process_list_covers _ _ _ _ _ _ G Hl Hag Hin Hcl) as (-> & Hset & Hcl1).
    by injection Hm as <- <-.
  - injection Hm as <- <-. intros _ Hcl. split; [by intros x ?%elem_of_nil|done].
Qed.

Lemma process_members_covers a og names c w c' w' G :
  process_members recurse a names c w = Some (c', w') →
  heap w !! a = Some og → policy og = og → agrees w →
  (∀ x, x ∈ names ≫= member_kids og → within g budget (processed w) x = true) →
  closed_except G (processed w) →
  (∀ x, x ∈ names ≫= member_kids og → settled (processed w') x) ∧
  closed_except G (processed w').
Proof.
  intros Hms Ho Hfix. revert c w Hms Ho.
  induction names as [|name rest IH]; intros c w; simpl.
  - intros [= <- <-] _ _ _ Hcl. split; [by intros x ?%elem_of_nil|done].
  - destruct (process_member recurse a name c w) as [[c1 w1]|] eqn:Hm; [|done].
    intros Hms Ho Hag Hin Hcl. pose proof (member_steps _ _ _ _ _ _ Hm) as Hst.
    destruct (process_member_covers _ _ _ _ _ _ _ G Hm Ho Hag) as [Hset1 Hcl1]; [|done|].
    { intros x Hx. apply Hin, elem_of_app. by left. }
    destruct (IH _ _ Hms) as [Hset2 Hcl2];
      [by eapply steps_fixpoint|by eapply steps_agrees| |done|].
    { intros x Hx. eapply within_mono; [|by apply steps_processed].
      apply Hin, elem_of_app. by right. }
    split; [|done]. intros x [Hx|Hx]%elem_of_app; [|by apply Hset2].
    eapply settled_mono; [by apply Hset1|]. eapply steps_processed, members_steps, Hms.
Qed.

Lemma process_children_covers a og c w r w' G :
  process_children recurse a c (member_names og) w = Some (r, w') →
  heap w !! a = Some og → policy og = og → agrees w →
  (∀ x, x ∈ kids og → within g budget (processed w) x = true) →
  closed_except G (processed w) →
  (∀ x, x ∈ kids og → settled (processed w') x) ∧ closed_except G (processed w').
Proof.
  unfold process_children, kids. destruct (member_names og) as [names|e].
  - destruct (process_members recurse a names c w) as [[c1 w1]|] eqn:Hms; [|done].
    intros [= <- <-]. by eapply process_members_covers.
  - intros [= <- <-] _ _ _ _ Hcl. split; [by intros x ?%elem_of_nil|done].
Qed.

Lemma enter_processed a i w :
  processed (enter SpeckleId a i w) = if truthy i then processed w ++ [i] else processed w.
Proof. unfold enter. by destruct (truthy i), (negb _). Qed.

Lemma id_of_policy o i : get_safe_attribute o "id" = Ret i → id_of (policy o) = i.
Proof. intros Hi. unfold id_of. by rewrite get_safe_attribute_policy, Hi. Qed.

Lemma children_steps a c names w r w' :
  process_children recurse a c names w = Some (r, w') → steps w w'.
Proof. apply process_children_steps; [intros ???; by apply step_emit|apply recurse_steps]. Qed.

(** The loop of an object [c] that was just entered, from the state [w3]. *)
Lemma process_children_settles c o i b w w3 r w' G :
  heap w !! c = Some o → get_safe_attribute o "id" = Ret i →
  truthy i && inb i (processed w) = false →
  agrees w → closed_except G (processed w) →
  forallb (within g budget (if truthy i then i :: processed w else processed w))
          (kids (policy o)) = true →
  heap w3 !! c = Some (policy o) → agrees w3 →
  processed w3 = (if truthy i then processed w ++ [i] else processed w) →
  process_children recurse c b (member_names o) w3 = Some (r, w') →
  (∃ b', r = Ret b') ∧ settled (processed w') c ∧ closed_except G (processed w').
Proof.
  intros Ho Hi Hnew Hag Hcl Hwithin Ho3 Hag3 Hp3 Hc.
  pose proof (agrees_lookup _ _ _ Hag Ho) as Hg.
  pose proof (id_of_policy _ _ Hi) as Hid.
  destruct (g_calm _ _ Hg) as [_ Hhash]. rewrite Hid in Hhash.
  pose proof (children_steps _ _ _ _ _ _ Hc) as Hst.
  pose proof (steps_processed _ _ Hst) as Hsub.
  rewrite <-(member_names_policy target_key target_value) in Hc.
  destruct (process_children_covers _ _ _ _ _ _ (if truthy i then i :: G else G)
              Hc Ho3 (policy_idemp _ _ _) Hag3) as [Hkids Hcl'].
  { intros x Hx. rewrite forallb_forall in Hwithin.
    eapply within_mono; [by apply Hwithin, list_elem_of_In|].
    rewrite Hp3. destruct (truthy i); [|done].
    intros y [->|Hy]%elem_of_cons; apply elem_of_app; [right; by left|by left]. }
  { rewrite Hp3. destruct (truthy i); [|done].
    intros a0 o0 Hg0 Ht0 Hin0 Hni0 x Hx. apply not_elem_of_cons in Hni0 as [Hne Hni0].
    apply elem_of_app in Hin0 as [Hin0|Hin0%list_elem_of_singleton]; [|done].
    eapply settled_mono; [by eapply Hcl|]. intros y Hy. apply elem_of_app. by left. }
  split_and!; [by eapply process_children_ret| |].
  - destruct (truthy i) eqn:Ht.
    + eapply settled_seen; [done|by rewrite Hid|]. rewrite Hid. apply Hsub.
      rewrite Hp3. apply elem_of_app. right. by left.
    + eapply settled_idless; [done|by rewrite Hid|done].
  - destruct (truthy i) eqn:Ht; [|done].
    intros a0 o0 Hg0 Ht0 Hin0 Hni0 x Hx.
    destruct (py_eq (id_of o0) i) eqn:Heq.
    + apply py_eq_eq in Heq.
      assert (a0 = c) as -> by (eapply g_ids; [done|done|done|by rewrite Hid]).
      assert (o0 = policy o) as -> by congruence. by apply Hkids.
    + eapply Hcl'; [done|done|done| |done].
      intros [Hi0|Hi0]%elem_of_cons; [|done].
      rewrite Hi0, py_eq_refl in Heq; [done|by apply Hhash].
Qed.

Lemma process_object_body_covers :
  call_ok depth
    (λ v w, process_object_body SpeckleId target_key target_value max_depth recurse v depth w).
Proof.
  intros c w r w' G Hb Hag Hwithin Hcl. unfold process_object_body in Hb.
  destruct (Z.gtb_spec depth max_depth) as [Hd|Hd].
  - injection Hb as <- <-. simpl.
    replace (Z.to_nat (max_depth - depth + 1)) with 0%nat in Hwithin by lia.
    simpl in Hwithin. split_and!; [by eauto| |done].
    destruct (g !! c) as [og|] eqn:Hg; [|by apply settled_dangling].
    destruct (truthy (id_of og) && inb (id_of og) (processed w)) eqn:E; [|done].
    apply andb_true_iff in E as [Ht Hin]. eapply settled_seen; [done|done|].
    by apply inb_elem_of.
  - destruct (heap w !! c) as [o|] eqn:Ho.
    2:{ injection Hb as <- <-. split_and!; [by eauto| |done].
        apply settled_dangling. by eapply agrees_lookup_None. }
    pose proof (agrees_lookup _ _ _ Hag Ho) as Hg.
    destruct (get_safe_attribute_ret o "id") as [i Hi].
    pose proof (id_of_policy _ _ Hi) as Hid.
    destruct (g_calm _ _ Hg) as [[b Hhas] Hhash]. rewrite Hid in Hhash.
    rewrite hasattr_policy in Hhas.
    replace (Z.to_nat (max_depth - depth + 1)) with (S budget) in Hwithin by lia.
    simpl in Hwithin. rewrite Hg, Hid in Hwithin.
    unfold process_base in Hb. rewrite Hi, Hhas in Hb.
    destruct (truthy i && negb (hashable i)) eqn:Eh.
    { apply andb_true_iff in Eh as [Ht Hn]. by rewrite (Hhash Ht) in Hn. }
    destruct (truthy i && inb i (processed w)) eqn:Ep.
    { injection Hb as <- <-. split_and!; [by eauto| |done].
      apply andb_true_iff in Ep as [Ht Hin].
      eapply settled_seen; [done|by rewrite Hid|]. rewrite Hid. by apply inb_elem_of. }
    destruct b.
    + unfold getitem in Hb. destruct (getattr o target_key) as [old|e] eqn:Hget;
        [|by unfold hasattr in Hhas; rewrite Hget in Hhas; destruct e].
      eapply process_children_settles; [done|done|done|done|done|done| | | |exact Hb].
      * simpl. rewrite lookup_insert_eq. by rewrite policy_rewrite.
      * unfold agrees in *. simpl. rewrite enter_heap, fmap_insert.
        rewrite <-(policy_rewrite _ _ _ Hhas), policy_idemp, Hag. by apply insert_id.
      * simpl. apply enter_processed.
    + eapply process_children_settles; [done|done|done|done|done|done| | | |exact Hb].
      * rewrite enter_heap, Ho. f_equal. symmetry. apply policy_keep. congruence.
      * unfold agrees in *. by rewrite enter_heap.
      * apply enter_processed.
Qed.

End loops.

Lemma process_object_rec_covers fuel depth :
  call_ok depth
    (λ v w, process_object_rec SpeckleId target_key target_value max_depth fuel v depth w).
Proof.
  revert depth. induction fuel as [|fuel IH]; intros depth; [by intros ?????|].
  simpl. apply process_object_body_covers; [|apply IH].
  intros v w r w'. apply process_object_rec_steps.
Qed.

Lemma reaches_settled P root c :
  closed_except [] P → settled P root → reaches g root c → settled P c.
Proof.
  intros Hcl Hroot. revert c. apply rtc_ind_r; [done|].
  intros y z _ (o & Hg & Hz) Hy. destruct Hy as [y oy Hgy Ht Hin|y oy Hgy Ht Hk|y Hgy].
  - assert (oy = o) as -> by congruence. eapply Hcl; [done|done|done| |done].
    by intros ?%elem_of_nil.
  - assert (oy = o) as -> by congruence. by apply Hk.
  - congruence.
Qed.

Lemma walk_covers fuel root depth w r w' Δ :
  process_object_rec SpeckleId target_key target_value max_depth fuel (VBase root) depth
    (with_processed [] w) = Some (r, w') →
  tracks (with_processed [] w) w' Δ → agrees w →
  within g (Z.to_nat (max_depth - depth + 1)) [] root = true →
  (∃ b, r = Ret b) ∧
  ∀ c o, reaches g root c → g !! c = Some o → truthy (id_of o) = true →
         (c, id_of o) ∈ visits Δ.
Proof.
  intros Hrun Ht Hag Hw.
  destruct (process_object_rec_covers fuel depth root _ _ _ [] Hrun) as (Hr & Hset & Hcl);
    [done|done|by intros ???? ?%elem_of_nil|].
  split; [done|]. intros c o Hreach Hg Htr.
  pose proof (reaches_settled _ _ _ Hcl Hset Hreach) as Hc.
  destruct Hc as [c oc Hgc _ Hin|c oc Hgc Hf _|c Hgc]; [|congruence..].
  assert (oc = o) as -> by congruence.
  rewrite (tr_processed _ _ _ _ _ _ Ht) in Hin. simpl in Hin.
  apply list_elem_of_filter in Hin as [_ Hin].
  apply list_elem_of_fmap in Hin as ([c' i] & Hi & Hin). simpl in Hi. subst i.
  destruct (tr_visit_id _ _ _ _ _ _ Ht _ _ Hin) as (o1 & Ho1 & Hid). simpl in Ho1.
  rewrite get_safe_attribute_policy in Hid by done.
  assert (get_safe_attribute o1 "id" = Ret (id_of o)) as Hid1 by (by destruct Hid).
  assert (c' = c) as ->; [|done].
  eapply g_ids; [by eapply agrees_lookup|done| |]; by rewrite (id_of_policy _ _ Hid1).
Qed.

End coverage.

Lemma count_addr_pos (a : addr) (i : value) (l : list (addr * value)) :
  (a, i) ∈ l → (1 ≤ count_addr a l)%nat.
Proof.
  intros Hin. unfold count_addr. destruct (filter _ _) eqn:E; simpl; [|lia].
  assert ((a, i) ∈ filter (λ p : addr * value, p.1 = a) l) as Hf
    by (by apply list_elem_of_filter).
  rewrite E in Hf. by apply elem_of_nil in Hf.
Qed.




(** ** The flag a walk returns *)

Lemma rewrote_app l k : rewrote (l ++ k) = rewrote l || rewrote k.
Proof. unfold rewrote. rewrite updates_app. by destruct (updates l). Qed.

Lemma rewrote_quiet e : quiet e = true → rewrote [e] = false.
Proof. intros Hq. unfold rewrote. by rewrite updates_quiet. Qed.

Lemma emit_log e w : log (emit e w) = log w ++ [e].
Proof. done. Qed.

Section flag.
Context (SpeckleId target_key target_value : string) (max_depth : Z).

Section loops.
Variable recurse : value → world → option (result bool * world).
Hypothesis recurse_flag : ∀ v w r w',
  recurse v w = Some (r, w') → ∃ Δ, log w' = log w ++ Δ ∧ flag_ok r Δ.

Lemma process_list_flag items c w c' e w' :
  process_list recurse items c w = Some (c', e, w') →
  ∃ Δ, log w' = log w ++ Δ ∧ c' = c || rewrote Δ.
Proof.
  revert c w. induction items as [|item rest IH]; intros c w; simpl.
  - intros [= <- <- <-]. exists []. by rewrite app_nil_r, orb_false_r.
  - destruct item as [| | |b|]; try by apply IH.
    destruct (recurse (VBase b) w) as [[[sub|e1] w1]|] eqn:Hr; [| |done];
      destruct (recurse_flag _ _ _ _ Hr) as (Δ1 & Hl1 & Hf1); simpl in Hf1.
    + intros Hl. destruct (IH _ _ Hl) as (Δ2 & Hl2 & ->). exists (Δ1 ++ Δ2).
      rewrite Hl2, Hl1, rewrote_app, Hf1, <-app_assoc. by rewrite orb_assoc.
    + intros [= <- <- <-]. exists Δ1. by rewrite Hf1, orb_false_r.
Qed.

Lemma process_member_flag a name c w c' w' :
  process_member recurse a name c w = Some (c', w') →
  ∃ Δ, log w' = log w ++ Δ ∧ c' = c || rewrote Δ.
Proof.
  unfold process_member.
  assert (∃ Δ, log w = log w ++ Δ ∧ c = c || rewrote Δ) as Hnil.
  { exists []. by rewrite app_nil_r, orb_false_r. }
  destruct (heap w !! a) as [o|]; [|by intros [= <- <-]].
  destruct (getattr o name) as [[| | |b|items]|e]; try by intros [= <- <-].
  - destruct (recurse (VBase b) w) as [[[sub|e1] w1]|] eqn:Hr; [| |done];
      destruct (recurse_flag _ _ _ _ Hr) as (Δ1 & Hl1 & Hf1); simpl in Hf1;
      intros [= <- <-].
    + exists Δ1. by rewrite Hf1.
    + exists (Δ1 ++ [EvMemberError name e1]).
      rewrite emit_log, Hl1, rewrote_app, Hf1, <-app_assoc. by rewrite orb_false_r.
  - destruct (process_list recurse items c w) as [[[c1 [e1|]] w1]|] eqn:Hl; [| |done];
      destruct (process_list_flag _ _ _ _ _ _ Hl) as (Δ1 & Hl1 & ->); intros [= <- <-].
    + exists (Δ1 ++ [EvMemberError name e1]).
      rewrite emit_log, Hl1, rewrote_app, <-app_assoc. by rewrite !orb_false_r.
    + by exists Δ1.
  - intros [= <- <-]. exists [EvMemberError name e]. by rewrite orb_false_r.
Qed.

Lemma process_members_flag a names c w c' w' :
  process_members recurse a names c w = Some (c', w') →
  ∃ Δ, log w' = log w ++ Δ ∧ c' = c || rewrote Δ.
Proof.
  revert c w. induction names as [|name rest IH]; intros c w; simpl.
  - intros [= <- <-]. exists []. by rewrite app_nil_r, orb_false_r.
  - destruct (process_member recurse a name c w) as [[c1 w1]|] eqn:Hm; [|done].
    destruct (process_member_flag _ _ _ _ _ _ Hm) as (Δ1 & Hl1 & ->).
    intros Hms. destruct (IH _ _ Hms) as (Δ2 & Hl2 & ->). exists (Δ1 ++ Δ2).
    rewrite Hl2, Hl1, rewrote_app, <-app_assoc. by rewrite orb_assoc.
Qed.

Lemma process_children_flag a c names w r w' :
  process_children recurse a c names w = Some (r, w') →
  ∃ Δ, log w' = log w ++ Δ ∧ r = Ret (c || rewrote Δ).
Proof.
  unfold process_children. destruct names as [names|e].
  - destruct (process_members recurse a names c w) as [[c1 w1]|] eqn:Hm; [|done].
    destruct (process_members_flag _ _ _ _ _ _ Hm) as (Δ1 & Hl1 & ->).
    intros [= <- <-]. by exists Δ1.
  - intros [= <- <-]. exists [EvObjectError e]. by rewrite orb_false_r.
Qed.

Lemma process_object_body_flag obj depth w r w' :
  process_object_body SpeckleId target_key target_value max_depth recurse obj depth w
    = Some (r, w') →
  ∃ Δ, log w' = log w ++ Δ ∧ flag_ok r Δ.
Proof.
  unfold process_object_body.
  assert (∃ Δ, log w = log w ++ Δ ∧ flag_ok (Ret false) Δ) as Hnil.
  { exists []. by rewrite app_nil_r. }
  destruct (depth >? max_depth).
  { intros [= <- <-]. by exists [EvMaxDepth depth]. }
  destruct obj as [| | |a|]; try by intros [= <- <-].
  destruct (heap w !! a) as [o|]; [|by intros [= <- <-]].
  unfold process_base. destruct (get_safe_attribute o "id") as [i|e].
  2:{ intros [= <- <-]. exists []. by rewrite app_nil_r. }
  destruct (truthy i && negb (hashable i)).
  { intros [= <- <-]. exists []. by rewrite app_nil_r. }
  destruct (truthy i && inb i (processed w)).
  { intros [= <- <-]. by exists [EvAlready i]. }
  destruct (hasattr o target_key) as [[]|e].
  - unfold getitem. destruct (getattr o target_key) as [old|e].
    + intros Hc. destruct (process_children_flag _ _ _ _ _ _ Hc) as (Δ1 & Hl1 & ->).
      exists ([EvProcessing a i; EvUpdated a i old] ++ Δ1). split; [|done].
      rewrite Hl1. simpl. by rewrite enter_log, <-!app_assoc.
    + intros [= <- <-]. exists [EvProcessing a i]. by rewrite enter_log.
  - intros Hc. destruct (process_children_flag _ _ _ _ _ _ Hc) as (Δ1 & Hl1 & ->).
    exists ([EvProcessing a i] ++ Δ1). split; [|done].
    by rewrite Hl1, enter_log, <-!app_assoc.
  - intros [= <- <-]. exists [EvProcessing a i]. by rewrite enter_log.
Qed.
End loops.

Lemma process_object_rec_flag fuel obj depth w r w' :
  process_object_rec SpeckleId target_key target_value max_depth fuel obj depth w
    = Some (r, w') →
  ∃ Δ, log w' = log w ++ Δ ∧ flag_ok r Δ.
Proof.
  revert obj depth w r w'. induction fuel as [|fuel IH]; intros obj depth w r w'; [done|].
  simpl. apply process_object_body_flag. intros v w1 r1 w1'. apply IH.
Qed.


(** X2. A caller that passes its own [processed] gets it back extended by
    the truthy identifiers of the objects visited, in the order of the
    visits and each once, and no object whose truthy identifier was in it is
    visited. *)
Theorem processed_given_suppresses_visits obj depth P w :
  ∃ r w' Δ,
    process_object SpeckleId target_key target_value max_depth obj depth (Some P) w
      = Some (r, w') ∧
    log w' = log w ++ Δ ∧
    processed w' = P ++ filter (λ i, Is_true (truthy i)) (visits Δ).*2 ∧
    NoDup (filter (λ i, Is_true (truthy i)) (visits Δ).*2) ∧
    ∀ i, i ∈ P → truthy i = true → i ∉ (visits Δ).*2.
Proof.
  destruct (walk_tracks SpeckleId target_key target_value max_depth obj depth (Some P) w)
    as (r & w' & Δ & Hrun & Ht).
  exists r, w', Δ. split_and!; [done|apply Ht|apply Ht|apply Ht|].
  intros i HP Hi Hin. eapply (tr_new _ _ _ _ _ _ Ht); [|exact HP].
  apply list_elem_of_filter. split; [by apply Is_true_true|done].
Qed.

(** X3. Whatever the walk appends to [changed_ids], other than [SpeckleId],
    it also appends to [same_ids], in the same order: [same_ids] lists the
    objects visited, rewritten or not. *)
Theorem changed_ids_also_in_same_ids obj depth P w :
  ∃ r w' δc δs,
    process_object SpeckleId target_key target_value max_depth obj depth P w = Some (r, w') ∧
    changed_ids w' = changed_ids w ++ δc ∧ same_ids w' = same_ids w ++ δs ∧
    filter (λ i, py_eq i (VStr SpeckleId) = false) δc `sublist_of` δs.
Proof.
  destruct (walk_tracks SpeckleId target_key target_value max_depth obj depth P w)
    as (r & w' & Δ & Hrun & Ht).
  exists r, w', (updates Δ).*2, (filter (λ i, py_eq i (VStr SpeckleId) = false) (visits Δ).*2).
  split_and!; [done|apply Ht|apply Ht|].
  apply filter_sublist_mono, fmap_sublist, Ht.
Qed.

End flag.

(** ** How far a walk goes *)

Lemma reaches_in_mono g n m a c : reaches_in g n a c → (n ≤ m)%nat → reaches_in g m a c.
Proof.
  intros Hr. revert m. induction Hr as [n a|n a b c He _ IH]; intros m Hm.
  - apply reaches_in_here.
  - destruct m as [|m]; [lia|]. eapply reaches_in_step; [done|]. apply IH. lia.
Qed.

Lemma reaches_in_reaches g n a c : reaches_in g n a c → reaches g a c.
Proof.
  induction 1 as [n a|n a b c He _ IH]; [apply rtc_refl|]. by eapply rtc_l.
Qed.

Lemma reaches_reaches_in g a c : reaches g a c → ∃ n, reaches_in g n a c.
Proof.
  induction 1 as [a|a b c He _ [n IH]].
  - exists 0%nat. apply reaches_in_here.
  - exists (S n). by eapply reaches_in_step.
Qed.

Section policy_kids.
Context (target_key target_value : string).

Local Abbreviation policy := (policy target_key target_value).

(** The policy gives an object no new member: it can only hide the objects
    that the target field held. *)
Lemma member_kids_policy o name c : c ∈ member_kids (policy o) name → c ∈ member_kids o name.
Proof.
  unfold member_kids. destruct (decide (name = target_key)) as [->|Hne].
  - destruct (hasattr o target_key) as [[]|e] eqn:Hhas.
    + rewrite getattr_policy_target by done. by intros ?%elem_of_nil.
    + rewrite policy_keep; [done|congruence].
    + rewrite policy_keep; [done|congruence].
  - by rewrite getattr_policy_ne.
Qed.

Lemma kids_policy o c : c ∈ kids (policy o) → c ∈ kids o.
Proof.
  unfold kids. rewrite member_names_policy. destruct (member_names o) as [names|e]; [|done].
  intros (name & Hc & Hn)%list_elem_of_bind. apply list_elem_of_bind.
  exists name. split; [by apply member_kids_policy|done].
Qed.

Lemma reaches_in_policy h n a c : reaches_in (policy <$> h) n a c → reaches_in h n a c.
Proof.
  induction 1 as [n a|n a b c (o & Ho & Hb) _ IH]; [apply reaches_in_here|].
  eapply reaches_in_step; [|done]. rewrite lookup_fmap in Ho.
  destruct (h !! a) as [o'|] eqn:Ho'; [|done]. injection Ho as <-.
  exists o'. split; [done|]. by apply kids_policy.
Qed.
End policy_kids.

Section reach.
Context (SpeckleId target_key target_value : string) (max_depth : Z).
Variable g : gmap addr Base.

Local Abbreviation policy := (policy target_key target_value).
Local Abbreviation steps := (steps SpeckleId target_key target_value).
Local Abbreviation agrees := (agrees target_key target_value g).
Local Abbreviation near := (near target_key target_value max_depth g).

Section loops.
Variable depth : Z.
Variable recurse : value → world → option (result bool * world).
Hypothesis recurse_steps : ∀ v w r w', recurse v w = Some (r, w') → steps w w'.
Hypothesis recurse_near : near (depth + 1) recurse.

Local Abbreviation below := (reaches_in g (Z.to_nat (max_depth - (depth + 1)))).

Lemma process_list_near items c w c' e w' :
  process_list recurse items c w = Some (c', e, w') → agrees w →
  ∃ Δ, log w' = log w ++ Δ ∧
       ∀ a, a ∈ (visits Δ).*1 → depth + 1 ≤ max_depth ∧ ∃ k, k ∈ bases items ∧ below k a.
Proof.
  revert c w. induction items as [|item rest IH]; intros c w; simpl.
  - intros [= <- <- <-] _. exists []. rewrite app_nil_r. split; [done|].
    by intros a ?%elem_of_nil.
  - destruct item as [| | |b|]; try by apply IH.
    destruct (recurse (VBase b) w) as [[[sub|e1] w1]|] eqn:Hr; [| |done]; intros Hl Hag;
      destruct (recurse_near _ _ _ _ Hr Hag) as (Δ1 & Hl1 & Hv1).
    + pose proof (steps_agrees _ _ _ _ _ _ (recurse_steps _ _ _ _ Hr) Hag) as Hag1.
      destruct (IH _ _ Hl Hag1) as (Δ2 & Hl2 & Hv2). exists (Δ1 ++ Δ2).
      rewrite Hl2, Hl1, <-app_assoc. split; [done|].
      intros a. rewrite visits_app, fmap_app. intros [Ha|Ha]%elem_of_app.
      * destruct (Hv1 _ Ha) as [Hd Hb]. split; [done|]. exists b. split; [by left|done].
      * destruct (Hv2 _ Ha) as (Hd & k & Hk & Hb). split; [done|]. exists k.
        split; [by right|done].
    + injection Hl as <- <- <-. exists Δ1. split; [done|].
      intros a Ha. destruct (Hv1 _ Ha) as [Hd Hb]. split; [done|]. exists b.
      split; [by left|done].
Qed.

Lemma process_member_near a og name c w c' w' :
  heap w !! a = Some og →
  process_member recurse a name c w = Some (c', w') → agrees w →
  ∃ Δ, log w' = log w ++ Δ ∧
       ∀ x, x ∈ (visits Δ).*1 →
            depth + 1 ≤ max_depth ∧ ∃ k, k ∈ member_kids og name ∧ below k x.
Proof.
  intros Ho. unfold process_member, member_kids. rewrite Ho.
  assert (∀ P : addr → Prop, ∃ Δ, log w = log w ++ Δ ∧ ∀ x, x ∈ (visits Δ).*1 → P x) as Hnil.
  { intros P. exists []. rewrite app_nil_r. split; [done|]. by intros x ?%elem_of_nil. }
  destruct (getattr og name) as [[| | |b|items]|e]; try by intros [= <- <-] _.
  - destruct (recurse (VBase b) w) as [[[sub|e1] w1]|] eqn:Hr; [| |done]; intros Hm Hag;
      destruct (recurse_near _ _ _ _ Hr Hag) as (Δ1 & Hl1 & Hv1); injection Hm as <- <-.
    + exists Δ1. split; [done|]. intros x Hx. destruct (Hv1 _ Hx) as [Hd Hb].
      split; [done|]. exists b. split; [by left|done].
    + exists (Δ1 ++ [EvMemberError name e1]). rewrite emit_log, Hl1, <-app_assoc.
      split; [done|]. intros x. rewrite visits_app, visits_quiet, app_nil_r by done.
      intros Hx. destruct (Hv1 _ Hx) as [Hd Hb].
      split; [done|]. exists b. split; [by left|done].
  - destruct (process_list recurse items c w) as [[[c1 [e1|]] w1]|] eqn:Hl; [| |done];
      intros Hm Hag; destruct (process_list_near _ _ _ _ _ _ Hl Hag) as (Δ1 & Hl1 & Hv1);
      injection Hm as <- <-.
    + exists (Δ1 ++ [EvMemberError name e1]). rewrite emit_log, Hl1, <-app_assoc.
      split; [done|]. intros x. rewrite visits_app, visits_quiet, app_nil_r by done.
      apply Hv1.
    + by exists Δ1.
  - intros [= <- <-] _. exists [EvMemberError name e]. split; [done|].
    by intros x ?%elem_of_nil.
Qed.

Lemma quiet_is_step w e : quiet e = true → step SpeckleId target_key target_value w (emit e w).
Proof. apply step_emit. Qed.

Lemma process_members_near a og names c w c' w' :
  heap w !! a = Some og → policy og = og →
  process_members recurse a names c w = Some (c', w') → agrees w →
  ∃ Δ, log w' = log w ++ Δ ∧
       ∀ x, x ∈ (visits Δ).*1 →
            depth + 1 ≤ max_depth ∧ ∃ k, k ∈ names ≫= member_kids og ∧ below k x.
Proof.
  intros Ho Hfix. revert c w Ho. induction names as [|name rest IH]; intros c w Ho; simpl.
  - intros [= <- <-] _. exists []. rewrite app_nil_r. split; [done|].
    by intros x ?%elem_of_nil.
  - destruct (process_member recurse a name c w) as [[c1 w1]|] eqn:Hm; [|done].
    intros Hms Hag.
    destruct (process_member_near _ _ _ _ _ _ _ Ho Hm Hag) as (Δ1 & Hl1 & Hv1).
    pose proof (process_member_steps _ quiet_is_step _ recurse_steps _ _ _ _ _ _ Hm) as Hst.
    pose proof (steps_agrees _ _ _ _ _ _ Hst Hag) as Hag1.
    pose proof (steps_fixpoint _ _ _ _ _ _ _ Hst Ho Hfix) as Ho1.
    destruct (IH _ _ Ho1 Hms Hag1) as (Δ2 & Hl2 & Hv2). exists (Δ1 ++ Δ2).
    rewrite Hl2, Hl1, <-app_assoc. split; [done|].
    intros x. rewrite visits_app, fmap_app. intros [Hx|Hx]%elem_of_app.
    + destruct (Hv1 _ Hx) as (Hd & k & Hk & Hb). split; [done|]. exists k.
      split; [|done]. apply elem_of_app. by left.
    + destruct (Hv2 _ Hx) as (Hd & k & Hk & Hb). split; [done|]. exists k.
      split; [|done]. apply elem_of_app. by right.
Qed.

Lemma process_children_near a og c w r w' :
  heap w !! a = Some og → policy og = og →
  process_children recurse a c (member_names og) w = Some (r, w') → agrees w →
  ∃ Δ, log w' = log w ++ Δ ∧
       ∀ x, x ∈ (visits Δ).*1 → depth + 1 ≤ max_depth ∧ ∃ k, k ∈ kids og ∧ below k x.
Proof.
  intros Ho Hfix. unfold process_children, kids. destruct (member_names og) as [names|e].
  - destruct (process_members recurse a names c w) as [[c1 w1]|] eqn:Hm; [|done].
    intros [= <- <-] Hag. by eapply process_members_near.
  - intros [= <- <-] _. exists [EvObjectError e]. split; [done|].
    by intros x ?%elem_of_nil.
Qed.

(** The visits of the loop of [c], seen from [c]. *)
Lemma process_children_near_parent c og b w r w' :
  depth ≤ max_depth → g !! c = Some og →
  heap w !! c = Some og → policy og = og →
  process_children recurse c b (member_names og) w = Some (r, w') → agrees w →
  ∃ Δ, log w' = log w ++ Δ ∧
       ∀ x, x ∈ (visits Δ).*1 → reaches_in g (Z.to_nat (max_depth - depth)) c x.
Proof.
  intros Hd Hg Ho Hfix Hc Hag.
  destruct (process_children_near _ _ _ _ _ _ Ho Hfix Hc Hag) as (Δ & Hl & Hv).
  exists Δ. split; [done|]. intros x Hx. destruct (Hv _ Hx) as (Hd1 & k & Hk & Hb).
  replace (Z.to_nat (max_depth - depth)) with (S (Z.to_nat (max_depth - (depth + 1)))) by lia.
  eapply reaches_in_step; [|done]. by exists og.
Qed.

Lemma process_object_body_near :
  near depth
    (λ v w, process_object_body SpeckleId target_key target_value max_depth recurse v depth w).
Proof.
  intros c w r w' Hb Hag. unfold process_object_body in Hb.
  assert (∀ P : addr → Prop, ∃ Δ, log w = log w ++ Δ ∧ ∀ x, x ∈ (visits Δ).*1 → P x) as Hnil.
  { intros P. exists []. rewrite app_nil_r. split; [done|]. by intros x ?%elem_of_nil. }
  destruct (Z.gtb_spec depth max_depth) as [Hd|Hd].
  { injection Hb as <- <-. exists [EvMaxDepth depth]. split; [done|].
    by intros x ?%elem_of_nil. }
  destruct (heap w !! c) as [o|] eqn:Ho; [|by injection Hb as <- <-].
  assert (g !! c = Some (policy o)) as Hg.
  { unfold agrees in Hag. by rewrite <-Hag, lookup_fmap, Ho. }
  unfold process_base in Hb. destruct (get_safe_attribute o "id") as [i|e];
    [|by injection Hb as <- <-].
  destruct (truthy i && negb (hashable i)); [by injection Hb as <- <-|].
  destruct (truthy i && inb i (processed w)).
  { injection Hb as <- <-. exists [EvAlready i]. split; [done|].
    by intros x ?%elem_of_nil. }
  assert (∀ x, x ∈ ([(c, i)] : list (addr * value)).*1 →
            depth ≤ max_depth ∧ reaches_in g (Z.to_nat (max_depth - depth)) c x) as Hself.
  { intros x ->%list_elem_of_singleton. split; [done|apply reaches_in_here]. }
  destruct (hasattr o target_key) as [[]|e] eqn:Hhas.
  - unfold getitem in Hb. destruct (getattr o target_key) as [old|e] eqn:Hget.
    + destruct (process_children_near_parent c (policy o) true
                  (rewrite_field target_key target_value c o i old (enter SpeckleId c i w))
                  r w' Hd Hg) as (Δ & Hl & Hv).
      * simpl. rewrite lookup_insert_eq. by rewrite policy_rewrite.
      * apply policy_idemp.
      * by rewrite member_names_policy.
      * unfold agrees in *. simpl. rewrite enter_heap, fmap_insert.
        rewrite <-(policy_rewrite _ _ _ Hhas), policy_idemp, Hag. by apply insert_id.
      * exists ([EvProcessing c i; EvUpdated c i old] ++ Δ). split.
        { rewrite Hl. simpl. by rewrite enter_log, <-!app_assoc. }
        intros x [Hx|Hx]%elem_of_cons; [subst x; split; [done|apply reaches_in_here]|].
        split; [done|]. by apply Hv.
    + injection Hb as <- <-. exists [EvProcessing c i]. split; [by rewrite enter_log|done].
  - assert (policy o = o) as Hfix by (apply policy_keep; congruence).
    rewrite Hfix in Hg.
    destruct (process_children_near_parent c o false (enter SpeckleId c i w)
                r w' Hd Hg) as (Δ & Hl & Hv); [by rewrite enter_heap|done|done| |].
    * unfold agrees in *. by rewrite enter_heap.
    * exists ([EvProcessing c i] ++ Δ). split.
      { by rewrite Hl, enter_log, <-!app_assoc. }
      intros x [Hx|Hx]%elem_of_cons; [subst x; split; [done|apply reaches_in_here]|].
      split; [done|]. by apply Hv.
  - injection Hb as <- <-. exists [EvProcessing c i]. split; [by rewrite enter_log|done].
Qed.
End loops.

Lemma process_object_rec_near fuel depth :
  near depth
    (λ v w, process_object_rec SpeckleId target_key target_value max_depth fuel v depth w).
Proof.
  revert depth. induction fuel as [|fuel IH]; intros depth; [by intros c w r w' ?|].
  simpl. apply process_object_body_near; [|apply IH].
  intros v w r w'. apply process_object_rec_steps.
Qed.

End reach.

Section reach_claims.
Context (SpeckleId target_key target_value : string) (max_depth : Z).

Local Abbreviation policy := (policy target_key target_value).
Local Abbreviation walk := (process_object SpeckleId target_key target_value max_depth).

Lemma walk_near root depth P w :
  ∃ r w' Δ,
    walk (VBase root) depth P w = Some (r, w') ∧
    tracks SpeckleId target_key target_value (with_processed (default [] P) w) w' Δ ∧
    ∀ a, a ∈ (visits Δ).*1 →
      depth ≤ max_depth ∧
      reaches_in (policy <$> heap w) (Z.to_nat (max_depth - depth)) root a.
Proof.
  destruct (walk_tracks SpeckleId target_key target_value max_depth (VBase root) depth P w)
    as (r & w' & Δ & Hrun & Ht).
  exists r, w', Δ. split_and!; [done|done|].
  destruct (process_object_rec_near SpeckleId target_key target_value max_depth
              (policy <$> heap w) _ _ _ _ _ _ Hrun) as (Δ' & Hl & Hv); [done|].
  assert (Δ' = Δ) as ->; [|done].
  pose proof (tr_log _ _ _ _ _ _ Ht) as H1. rewrite Hl in H1. by apply app_inv_head in H1.
Qed.

(** X4. A walk started at [depth] on the object [root] visits only objects
    that are at most [max_depth - depth] members away from [root], the
    members being read after the rewrite; started above the ceiling it visits
    none. *)
Theorem visits_within_reach root depth P w :
  ∃ r w' Δ,
    walk (VBase root) depth P w = Some (r, w') ∧ log w' = log w ++ Δ ∧
    ∀ a i, (a, i) ∈ visits Δ →
      depth ≤ max_depth ∧
      reaches_in (policy <$> heap w) (Z.to_nat (max_depth - depth)) root a.
Proof.
  destruct (walk_near root depth P w) as (r & w' & Δ & Hrun & Ht & Hv).
  exists r, w', Δ. split_and!; [done|apply Ht|].
  intros a i Hin. apply Hv. apply list_elem_of_fmap. by exists (a, i).
Qed.

(** X5. Every object that a walk changes is at most [max_depth - depth]
    members away from the object the walk was called on, in the graph as it
    was before the walk: the rest of the heap is as it was, and all of it
    when the walk is called on a value that is no [Base] or above the
    ceiling. *)
Theorem changes_within_reach obj depth P w :
  ∃ r w',
    walk obj depth P w = Some (r, w') ∧
    ∀ a, heap w' !! a ≠ heap w !! a →
      depth ≤ max_depth ∧
      ∃ root, obj = VBase root ∧ reaches_in (heap w) (Z.to_nat (max_depth - depth)) root a.
Proof.
  assert (∀ w' Δ,
    tracks SpeckleId target_key target_value (with_processed (default [] P) w) w' Δ →
    ∀ a, heap w' !! a ≠ heap w !! a → a ∈ (visits Δ).*1) as Hchanged.
  { intros w' Δ Ht a Hne. rewrite (tr_heap _ _ _ _ _ _ Ht) in Hne.
    destruct (decide (a ∈ (updates Δ).*1)) as [Hin|]; [|done].
    eapply elem_of_sublist; [exact Hin|]. apply fmap_sublist, Ht. }
  destruct obj as [| | |root|].
  all: try (destruct (walk_near root depth P w) as (r & w' & Δ & Hrun & Ht & Hv);
            exists r, w'; split; [done|]; intros a Hne;
            destruct (Hv a (Hchanged _ _ Ht a Hne)) as [Hd Hr]; split; [done|];
            exists root; split; [done|]; by apply reaches_in_policy in Hr).
  all: unfold process_object, enough_fuel; simpl; unfold process_object_body;
    destruct (depth >? max_depth); eexists _, _; (split; [done|]); by intros a [].
Qed.

End reach_claims.

(** * The URL helpers *)

(** ** The matcher *)

Lemma accepts_NotChr c x : accepts (NotChr c) x = true ↔ x ≠ c.
Proof. simpl. rewrite negb_true_iff. apply Ascii.eqb_neq. Qed.

Lemma Forall_accepts_NotChr c t : Forall (λ x, accepts (NotChr c) x = true) t ↔ c ∉ t.
Proof.
  induction t as [|x t IH]; [split; [by intros _ ?%elem_of_nil|done]|].
  rewrite Forall_cons, not_elem_of_cons, IH, accepts_NotChr.
  split; intros [H1 H2]; split; try done; by intros ?.
Qed.

Lemma stops_NotChr c s : stops (NotChr c) s ↔ s = [] ∨ head s = Some c.
Proof.
  destruct s as [|x s]; simpl; [split; [by left|done]|].
  rewrite negb_false_iff, Ascii.eqb_eq. split; [intros ->; by right|].
  by intros [?|[= ->]].
Qed.

Lemma take_consumed (t s : list ascii) : take (length (t ++ s) - length s) (t ++ s) = t.
Proof. apply take_app_length'. rewrite length_app. lia. Qed.

Section matcher.
Context {A : Type}.
Implicit Types (k : charset) (s t : list ascii) (gs : captures) (a : A).

Lemma run_lit_app l s gs (rest : list ascii → captures → option A) :
  run (lit l) (l ++ s) gs rest = rest s gs.
Proof. induction l as [|c l IH]; simpl; [done|]. by rewrite Ascii.eqb_refl. Qed.

Lemma run_lit_inv l s gs (rest : list ascii → captures → option A) a :
  run (lit l) s gs rest = Some a → ∃ s', s = l ++ s' ∧ rest s' gs = Some a.
Proof.
  revert s. induction l as [|c l IH]; simpl; intros s H; [by exists s|].
  destruct s as [|x s]; [done|]. destruct (Ascii.eqb_spec x c) as [->|]; [|done].
  apply IH in H as (s' & -> & H). by exists s'.
Qed.

Lemma run_one_inv k s gs (rest : list ascii → captures → option A) a :
  run (One k) s gs rest = Some a →
  ∃ x s', s = x :: s' ∧ accepts k x = true ∧ rest s' gs = Some a.
Proof.
  simpl. destruct s as [|x s]; [done|]. destruct (accepts k x) eqn:E; [|done].
  intros H. by exists x, s.
Qed.

Lemma run_one_app k x s gs (rest : list ascii → captures → option A) :
  accepts k x = true → run (One k) (x :: s) gs rest = rest s gs.
Proof. intros Hx. simpl. by rewrite Hx. Qed.

Lemma run_opt_inv k s gs (rest : list ascii → captures → option A) a :
  run (Opt k) s gs rest = Some a →
  rest s gs = Some a ∨ ∃ x s', s = x :: s' ∧ accepts k x = true ∧ rest s' gs = Some a.
Proof.
  simpl. destruct s as [|x s]; [by left|]. destruct (accepts k x) eqn:E; [|by left].
  destruct (rest s gs) as [b|] eqn:Hr; [|by left]. intros [= <-]. right. by exists x, s.
Qed.

Lemma run_opt_take k x s gs (rest : list ascii → captures → option A) a :
  accepts k x = true → rest s gs = Some a → run (Opt k) (x :: s) gs rest = Some a.
Proof. intros Hx Hr. simpl. by rewrite Hx, Hr. Qed.

Lemma run_opt_skip k s gs (rest : list ascii → captures → option A) :
  stops k s → run (Opt k) s gs rest = rest s gs.
Proof. destruct s as [|x s]; simpl; [done|]. by intros ->. Qed.

Lemma star_inv k s (rest : list ascii → option A) a :
  star k s rest = Some a →
  ∃ t s', s = t ++ s' ∧ Forall (λ x, accepts k x = true) t ∧ rest s' = Some a.
Proof.
  induction s as [|x s IH]; simpl; intros H; [by exists [], []|].
  destruct (accepts k x) eqn:E; [|by exists [], (x :: s)].
  destruct (star k s rest) as [b|]; [|by exists [], (x :: s)].
  destruct IH as (t & s' & -> & Ht & Hr); [done|]. exists (x :: t), s'.
  split_and!; [done|by constructor|congruence].
Qed.

(** A repetition before a rest that accepts whatever is left takes all it
    can. *)
Lemma star_greedy k s (rest : list ascii → option A) :
  (∀ s', is_Some (rest s')) →
  ∃ t s', s = t ++ s' ∧ Forall (λ x, accepts k x = true) t ∧ stops k s' ∧
          star k s rest = rest s'.
Proof.
  intros Hrest. induction s as [|x s IH]; simpl; [by exists [], []|].
  destruct (accepts k x) eqn:E; [|by exists [], (x :: s)].
  destruct IH as (t & s' & -> & Ht & Hs & ->). exists (x :: t), s'.
  split_and!; [done|by constructor|done|]. by destruct (Hrest s') as [b ->].
Qed.

Lemma star_app k t s (rest : list ascii → option A) a :
  Forall (λ x, accepts k x = true) t → stops k s → rest s = Some a →
  star k (t ++ s) rest = Some a.
Proof.
  intros Ht Hs Hr. induction Ht as [|x t Hx _ IH]; simpl.
  - destruct s as [|y s]; simpl in *; [done|]. by rewrite Hs.
  - by rewrite Hx, IH.
Qed.

Lemma run_plus_inv k s gs (rest : list ascii → captures → option A) a :
  run (Plus k) s gs rest = Some a →
  ∃ t s', s = t ++ s' ∧ t ≠ [] ∧ Forall (λ x, accepts k x = true) t ∧ rest s' gs = Some a.
Proof.
  simpl. destruct s as [|x s]; [done|]. destruct (accepts k x) eqn:E; [|done].
  intros (t & s' & -> & Ht & Hr)%star_inv. exists (x :: t), s'.
  split_and!; [done|done|by constructor|done].
Qed.

Lemma run_plus_greedy k s gs (rest : list ascii → captures → option A) a :
  (∀ s', is_Some (rest s' gs)) →
  run (Plus k) s gs rest = Some a →
  ∃ t s', s = t ++ s' ∧ t ≠ [] ∧ Forall (λ x, accepts k x = true) t ∧ stops k s' ∧
          rest s' gs = Some a.
Proof.
  intros Hrest. simpl. destruct s as [|x s]; [done|]. destruct (accepts k x) eqn:E; [|done].
  destruct (star_greedy k s (λ s'', rest s'' gs) Hrest) as (t & s' & -> & Ht & Hs & ->).
  intros Hr. exists (x :: t), s'. split_and!; [done|done|by constructor|done|done].
Qed.

Lemma run_plus_app k t s gs (rest : list ascii → captures → option A) a :
  t ≠ [] → Forall (λ x, accepts k x = true) t → stops k s → rest s gs = Some a →
  run (Plus k) (t ++ s) gs rest = Some a.
Proof.
  intros Hne Ht Hs Hr. destruct Ht as [|x t Hx Ht]; [done|]. simpl. rewrite Hx.
  by apply star_app.
Qed.
End matcher.

(** ** [parse_speckle_url] *)

Lemma lookup_url_parts a b c d :
  url_parts a b c d !! "server" = Some (Some a) ∧
  url_parts a b c d !! "stream_id" = Some (Some b) ∧
  url_parts a b c d !! "branch_name" = Some (Some c) ∧
  url_parts a b c d !! "commit_id" = Some (Some d).
Proof. unfold url_parts. split_and!; by simplify_map_eq. Qed.

Lemma run_seq {A} r1 r2 s gs (rest : list ascii → captures → option A) :
  run (Seq r1 r2) s gs rest = run r1 s gs (λ s' gs', run r2 s' gs' rest).
Proof. done. Qed.

Lemma run_group {A} i r s gs (rest : list ascii → captures → option A) :
  run (Group i r) s gs rest =
  run r s gs (λ s' gs', rest s' (<[i := take (length s - length s') s]> gs')).
Proof. done. Qed.

Lemma run_scheme_inv {A} r s (rest : list ascii → captures → option A) a :
  run (Seq (lit (text "http")) (Seq (Opt (Chr "s")) r)) s ∅ rest = Some a →
  ∃ secure s', s = scheme secure ++ s' ∧ run r s' ∅ rest = Some a.
Proof.
  rewrite run_seq. intros (s0 & -> & H)%run_lit_inv. rewrite run_seq in H.
  apply run_opt_inv in H as [H|(x & s1 & -> & ->%Ascii.eqb_eq & H)].
  - by exists false, s0.
  - by exists true, s1.
Qed.

Lemma run_scheme_app {A} secure r s (rest : list ascii → captures → option A) a :
  run r (text "://" ++ s) ∅ rest = Some a →
  run (Seq (lit (text "http")) (Seq (Opt (Chr "s")) r)) (scheme secure ++ text "://" ++ s)
    ∅ rest = Some a.
Proof.
  intros Hr. rewrite run_seq. destruct secure.
  - change (scheme true ++ text "://" ++ s) with (text "http" ++ "s"%char :: text "://" ++ s).
    rewrite run_lit_app, run_seq. by apply run_opt_take.
  - change (scheme false ++ text "://" ++ s) with (text "http" ++ text "://" ++ s).
    by rewrite run_lit_app, run_seq, run_opt_skip.
Qed.

(** The groups of a match, and what the match left of the URL. *)
Lemma re_match_pattern_inv url m :
  re_match pattern url = Some m →
  ∃ secure server stream_id branch_name commit_id rest,
    url = fe2_url secure server stream_id branch_name commit_id ++ rest ∧
    part "/" server ∧ part "/" stream_id ∧ part "@" branch_name ∧ part "010" commit_id ∧
    (rest = [] ∨ head rest = Some "010"%char) ∧
    m = <[4%nat := commit_id]> (<[3%nat := branch_name]> (<[2%nat := stream_id]>
          (<[1%nat := server]> ∅))).
Proof.
  unfold re_match, pattern, cat. cbn [foldr]. intros H.
  apply run_scheme_inv in H as (secure & s1 & -> & H).
  rewrite run_seq in H. apply run_lit_inv in H as (s2 & -> & H).
  rewrite run_seq, run_group in H.
  apply run_plus_inv in H as (server & s3 & -> & Hn1 & Hf1%Forall_accepts_NotChr & H).
  rewrite take_consumed, run_seq in H. apply run_lit_inv in H as (s4 & -> & H).
  rewrite run_seq, run_group in H.
  apply run_plus_inv in H as (stream_id & s5 & -> & Hn2 & Hf2%Forall_accepts_NotChr & H).
  rewrite take_consumed, run_seq in H. apply run_lit_inv in H as (s6 & -> & H).
  rewrite run_seq, run_group in H.
  apply run_plus_inv in H as (branch_name & s7 & -> & Hn3 & Hf3%Forall_accepts_NotChr & H).
  rewrite take_consumed, run_seq in H.
  apply run_one_inv in H as (x & s8 & -> & ->%Ascii.eqb_eq & H).
  rewrite run_seq, run_group in H.
  apply run_plus_greedy in H as (commit_id & rest & -> & Hn4 & Hf4 & Hs & H); [|by eauto].
  rewrite take_consumed in H. injection H as <-.
  apply (Forall_accepts_NotChr "010") in Hf4. apply (stops_NotChr "010") in Hs.
  exists secure, server, stream_id, branch_name, commit_id, rest.
  split_and!; try done. unfold fe2_url. by rewrite <-!app_assoc.
Qed.

Lemma re_match_pattern secure server stream_id branch_name commit_id rest :
  part "/" server → part "/" stream_id → part "@" branch_name → part "010" commit_id →
  rest = [] ∨ head rest = Some "010"%char →
  re_match pattern (fe2_url secure server stream_id branch_name commit_id ++ rest)
  = Some (<[4%nat := commit_id]> (<[3%nat := branch_name]> (<[2%nat := stream_id]>
            (<[1%nat := server]> ∅)))).
Proof.
  intros [Hn1 Hf1%Forall_accepts_NotChr] [Hn2 Hf2%Forall_accepts_NotChr]
    [Hn3 Hf3%Forall_accepts_NotChr] [Hn4 Hf4%Forall_accepts_NotChr]
    Hrest%(stops_NotChr "010").
  unfold re_match, pattern, cat, fe2_url. cbn [foldr]. rewrite <-!app_assoc.
  apply run_scheme_app. rewrite run_seq, run_lit_app, run_seq, run_group.
  apply run_plus_app; [done|done|by apply stops_NotChr; right|].
  rewrite take_consumed, run_seq, run_lit_app, run_seq, run_group.
  apply run_plus_app; [done|done|by apply stops_NotChr; right|].
  rewrite take_consumed, run_seq, run_lit_app, run_seq, run_group.
  apply run_plus_app; [done|done|by apply stops_NotChr; right|].
  rewrite take_consumed, run_seq.
  change (text "@" ++ commit_id ++ rest) with ("@"%char :: commit_id ++ rest).
  rewrite run_one_app by apply Ascii.eqb_refl.
  rewrite run_seq, run_group.
  apply (run_plus_app Dot); [done|done|done|].
  cbn [run]. by rewrite take_consumed.
Qed.

Lemma group_captures a b c d :
  let m : captures := <[4%nat := d]> (<[3%nat := c]> (<[2%nat := b]> (<[1%nat := a]> ∅))) in
  group m 1 = Some a ∧ group m 2 = Some b ∧ group m 3 = Some c ∧ group m 4 = Some d.
Proof. unfold group. split_and!; by simplify_map_eq. Qed.

Lemma parse_speckle_url_shape url d :
  parse_speckle_url url = Some d →
  ∃ secure server stream_id branch_name commit_id rest,
    url = fe2_url secure server stream_id branch_name commit_id ++ rest ∧
    part "/" server ∧ part "/" stream_id ∧ part "@" branch_name ∧ part "010" commit_id ∧
    (rest = [] ∨ head rest = Some "010"%char) ∧
    d = url_parts server stream_id branch_name commit_id.
Proof.
  unfold parse_speckle_url. destruct (re_match pattern url) as [m|] eqn:Hm; [|done].
  intros [= <-].
  apply re_match_pattern_inv in Hm
    as (secure & server & stream_id & branch_name & commit_id & rest &
        -> & H1 & H2 & H3 & H4 & Hrest & ->).
  exists secure, server, stream_id, branch_name, commit_id, rest.
  split_and!; done.
Qed.

(** X6. When [parse_speckle_url] returns a dictionary, the URL starts with
    [http://] or [https://], then a server and a stream without slash, a
    branch without [@] and a commit, none of them empty, laid out as
    [server/projects/stream/models/branch@commit]; the dictionary holds these
    four parts; and the commit runs to the end of the URL or of its first
    line, what follows being dropped. *)
Theorem parse_speckle_url_sound url d :
  parse_speckle_url url = Some d →
  ∃ secure server stream_id branch_name commit_id rest,
    url = fe2_url secure server stream_id branch_name commit_id ++ rest ∧
    part "/" server ∧ part "/" stream_id ∧ part "@" branch_name ∧ part "010" commit_id ∧
    (rest = [] ∨ head rest = Some "010"%char) ∧
    d = url_parts server stream_id branch_name commit_id.
Proof. apply parse_speckle_url_shape. Qed.

Lemma parse_speckle_url_sound_witness :
  ∃ secure server stream_id branch_name commit_id rest,
    main_url = fe2_url secure server stream_id branch_name commit_id ++ rest ∧
    part "/" server ∧ part "/" stream_id ∧ part "@" branch_name ∧ part "010" commit_id ∧
    (rest = [] ∨ head rest = Some "010"%char) ∧
    url_parts (text "app.speckle.systems") (text "f9eeb0be04") (text "d3bcf9820c")
      (text "ca5cde436f")
    = url_parts server stream_id branch_name commit_id.
Proof.
  apply (parse_speckle_url_sound main_url). vm_compute. reflexivity.
Defined.

(** X7. A URL [http(s)://server/projects/stream/models/branch@commit] whose
    server and stream hold no slash, whose branch holds no [@] and whose
    commit holds no newline, none of them empty, is parsed into these four
    parts; so is the URL followed by a newline and any text. The branch may
    hold slashes, and the commit any character but the newline. *)
Theorem parse_speckle_url_complete secure server stream_id branch_name commit_id rest :
  part "/" server → part "/" stream_id → part "@" branch_name → part "010" commit_id →
  rest = [] ∨ head rest = Some "010"%char →
  parse_speckle_url (fe2_url secure server stream_id branch_name commit_id ++ rest)
  = Some (url_parts server stream_id branch_name commit_id).
Proof.
  intros H1 H2 H3 H4 Hrest. unfold parse_speckle_url.
  rewrite re_match_pattern by done.
  destruct (group_captures server stream_id branch_name commit_id) as (-> & -> & -> & ->).
  done.
Qed.

Lemma parse_speckle_url_complete_witness :
  parse_speckle_url main_url
  = Some (url_parts (text "app.speckle.systems") (text "f9eeb0be04") (text "d3bcf9820c")
            (text "ca5cde436f")).
Proof.
  apply (parse_speckle_url_complete true (text "app.speckle.systems") (text "f9eeb0be04")
           (text "d3bcf9820c") (text "ca5cde436f") []).
  - split; [done|compute_done].
  - split; [done|compute_done].
  - split; [done|compute_done].
  - split; [done|compute_done].
  - by left.
Defined.

(** ** [sanitize_server_url] *)

Lemma startswith_elem_of p s c : startswith p s = true → c ∈ p → c ∈ s.
Proof.
  revert s. induction p as [|x p IH]; intros s; [by intros _ ?%elem_of_nil|].
  destruct s as [|y s]; [done|]. simpl.
  intros [->%Ascii.eqb_eq Hp]%andb_true_iff [->|Hc]%elem_of_cons; [by left|].
  right. by apply IH.
Qed.

Lemma startswith_app p s : startswith p (p ++ s) = true.
Proof. induction p as [|x p IH]; simpl; [done|]. by rewrite Ascii.eqb_refl. Qed.

Lemma replace_go_absent c old new s : c ∈ old → c ∉ s → replace_go old new 0 s = s.
Proof.
  intros Hc. induction s as [|x s IH]; [done|]. intros [Hx Hs]%not_elem_of_cons.
  cbn [replace_go]. destruct (startswith old (x :: s)) eqn:E.
  - apply (startswith_elem_of _ _ c) in E; [|done].
    apply elem_of_cons in E as [?|?]; done.
  - f_equal. by apply IH.
Qed.

(** A text without one of the characters of [old] holds no [old]. *)
Lemma replace_absent c old new s : c ∈ old → c ∉ s → replace old new s = s.
Proof.
  intros Hc Hs. unfold replace. destruct old as [|o old]; [by apply elem_of_nil in Hc|].
  by eapply replace_go_absent.
Qed.

Lemma replace_go_skip old new t s :
  replace_go old new (length t) (t ++ s) = replace_go old new 0 s.
Proof. induction t as [|x t IH]; [done|]. simpl. apply IH. Qed.

Lemma replace_prefix old new s : old ≠ [] → replace old new (old ++ s) = new ++ replace old new s.
Proof.
  destruct old as [|o old]; [done|]. intros _. unfold replace.
  change ((o :: old) ++ s) with (o :: (old ++ s)). cbn [replace_go].
  change (o :: (old ++ s)) with ((o :: old) ++ s). rewrite startswith_app.
  f_equal. replace (length (o :: old) - 1)%nat with (length old) by (simpl; lia).
  apply replace_go_skip.
Qed.

Lemma rstrip_absent c s : c ∉ s → rstrip [c] s = s.
Proof.
  induction s as [|x s IH]; [done|]. intros [Hx Hs]%not_elem_of_cons. simpl.
  rewrite IH by done. destruct s; [|done].
  rewrite bool_decide_eq_false_2; [done|]. intros ->%list_elem_of_singleton. done.
Qed.

Lemma rstrip_replicate c n : rstrip [c] (replicate n c) = [].
Proof.
  induction n as [|n IH]; [done|]. simpl. rewrite IH.
  rewrite bool_decide_eq_true_2; [done|]. by left.
Qed.

Lemma rstrip_app_nil chars s t : rstrip chars t = [] → rstrip chars (s ++ t) = rstrip chars s.
Proof. intros Ht. induction s as [|x s IH]; simpl; [done|]. by rewrite IH. Qed.

Lemma rstrip_app_ne chars s t :
  rstrip chars t ≠ [] → rstrip chars (s ++ t) = s ++ rstrip chars t.
Proof.
  intros Ht. induction s as [|x s IH]; simpl; [done|]. rewrite IH.
  destruct s as [|y s]; simpl; [|done]. by destruct (rstrip chars t).
Qed.

(** What [rstrip] leaves does not end with one of [chars]. *)
Lemma rstrip_last chars s x : last (rstrip chars s) = Some x → x ∉ chars.
Proof.
  revert x. induction s as [|y s IH]; intros x; simpl; [done|].
  destruct (rstrip chars s) as [|z r] eqn:E.
  - destruct (bool_decide (y ∈ chars)) eqn:Ey; [done|]. simpl. intros [= <-].
    by apply bool_decide_eq_false in Ey.
  - rewrite last_cons_cons. apply IH.
Qed.

Section squeeze.
Variable c : ascii.

(** [s.replace(cc, c)] *)
Local Abbreviation squeeze := (replace_go [c; c] [c] 0).

Lemma squeeze_pair s : squeeze (c :: c :: s) = c :: squeeze s.
Proof. cbn. by rewrite !Ascii.eqb_refl. Qed.

Lemma squeeze_other x s : x ≠ c → squeeze (x :: s) = x :: squeeze s.
Proof.
  intros Hx. cbn. destruct (Ascii.eqb_spec c x) as [->|]; [done|]. done.
Qed.

Lemma squeeze_single s : stops (Chr c) s → squeeze (c :: s) = c :: squeeze s.
Proof.
  intros Hs. cbn. rewrite Ascii.eqb_refl. destruct s as [|y s]; [done|].
  simpl in Hs. rewrite Ascii.eqb_sym in Hs. by rewrite Hs.
Qed.

Lemma squeeze_cons x y s :
  squeeze (x :: y :: s) = x :: squeeze (y :: s) ∨
  (x = c ∧ y = c ∧ squeeze (x :: y :: s) = c :: squeeze s).
Proof.
  destruct (decide (x = c)) as [->|Hx]; [|left; by apply squeeze_other].
  destruct (decide (y = c)) as [->|Hy].
  - right. split_and!; [done|done|apply squeeze_pair].
  - left. apply squeeze_single. simpl. by apply Ascii.eqb_neq.
Qed.

Lemma squeeze_last_both z s :
  z ≠ c →
  (last s = Some z → last (squeeze s) = Some z) ∧
  (∀ x, last (x :: s) = Some z → last (squeeze (x :: s)) = Some z).
Proof.
  intros Hz. induction s as [|y s [IH1 IH2]].
  - split; [done|]. intros x [= ->]. by rewrite squeeze_other.
  - split; [apply IH2|]. intros x Hl. rewrite last_cons_cons in Hl.
    destruct (squeeze_cons x y s) as [->|(-> & -> & ->)].
    + rewrite last_cons, IH2; done.
    + destruct s as [|y' s]; [by injection Hl as <-|].
      rewrite last_cons_cons in Hl. by rewrite last_cons, IH1.
Qed.

Lemma squeeze_last z s : z ≠ c → last s = Some z → last (squeeze s) = Some z.
Proof. intros Hz. by apply squeeze_last_both. Qed.

Lemma squeeze_absent_app p s : c ∉ p → squeeze (p ++ s) = p ++ squeeze s.
Proof.
  induction p as [|x p IH]; [done|]. intros [Hx Hp]%not_elem_of_cons.
  change ((x :: p) ++ s) with (x :: (p ++ s)).
  rewrite squeeze_other by (by intros ->). by rewrite IH.
Qed.

(** A run of [n] characters [c] is left with every second of them. *)
Lemma squeeze_replicate_both n s :
  stops (Chr c) s →
  squeeze (replicate n c ++ s) = replicate (Nat.div2 (S n)) c ++ squeeze s ∧
  squeeze (replicate (S n) c ++ s) = replicate (Nat.div2 (S (S n))) c ++ squeeze s.
Proof.
  intros Hs. induction n as [|n [IH1 IH2]].
  - split; [done|]. by apply squeeze_single.
  - split; [done|]. cbn [replicate app]. rewrite squeeze_pair, IH1. done.
Qed.

Lemma squeeze_replicate n s :
  stops (Chr c) s →
  squeeze (replicate n c ++ s) = replicate (Nat.div2 (S n)) c ++ squeeze s.
Proof. intros Hs. by apply squeeze_replicate_both. Qed.
End squeeze.

Lemma replace_pair c s : replace [c; c] [c] s = replace_go [c; c] [c] 0 s.
Proof. done. Qed.

Lemma sanitize_server_url_fixed s : "/"%char ∉ s → sanitize_server_url s = s.
Proof.
  intros Hs. unfold sanitize_server_url.
  rewrite (replace_absent "/" (text "http://")) by (done || compute_done).
  rewrite (replace_absent "/" (text "https://")) by (done || compute_done).
  change (text "/") with ["/"%char]. rewrite rstrip_absent by done.
  by rewrite (replace_absent "/") by (done || compute_done).
Qed.

Lemma replace_scheme secure s :
  ":"%char ∉ s →
  replace (text "https://") [] (replace (text "http://") [] (scheme secure ++ text "://" ++ s))
  = s.
Proof.
  intros Hs. destruct secure.
  - change (scheme true ++ text "://" ++ s) with (text "https://" ++ s).
    assert (replace (text "http://") [] (text "https://" ++ s) = text "https://" ++ s) as ->.
    { unfold replace. cbn. f_equal. f_equal. f_equal. f_equal. f_equal. f_equal. f_equal.
      f_equal. apply (replace_go_absent ":"); [compute_done|done]. }
    rewrite replace_prefix by done. apply (replace_absent ":"); [compute_done|done].
  - change (scheme false ++ text "://" ++ s) with (text "http://" ++ s).
    rewrite replace_prefix by done. rewrite app_nil_l.
    rewrite (replace_absent ":" (text "http://")) by (done || compute_done).
    apply (replace_absent ":"); [compute_done|done].
Qed.

(** X8. [sanitize_server_url] strips the scheme and the slashes at the end:
    from [http://host], [https://host], followed by any number of slashes,
    it returns [host], for a [host] that holds neither a slash nor a
    colon. *)
Theorem sanitize_server_url_strips secure host n :
  "/"%char ∉ host → ":"%char ∉ host →
  sanitize_server_url (scheme secure ++ text "://" ++ host ++ replicate n "/"%char) = host.
Proof.
  intros Hslash Hcolon. unfold sanitize_server_url.
  rewrite replace_scheme.
  2:{ apply not_elem_of_app. split; [done|]. by intros [[=] _]%elem_of_replicate. }
  change (text "/") with ["/"%char].
  rewrite rstrip_app_nil by apply rstrip_replicate. rewrite rstrip_absent by done.
  apply (replace_absent "/"); [compute_done|done].
Qed.

Lemma sanitize_server_url_strips_witness :
  sanitize_server_url (text "https://speckle.xyz//") = text "speckle.xyz".
Proof.
  apply (sanitize_server_url_strips true (text "speckle.xyz") 2); compute_done.
Defined.

(** X9. What [sanitize_server_url] returns never ends with a slash. *)
Theorem sanitize_server_url_no_trailing_slash url :
  match last (sanitize_server_url url) with
  | Some x => x ≠ "/"%char
  | None => True
  end.
Proof.
  unfold sanitize_server_url.
  set (u := replace (text "https://") [] (replace (text "http://") [] url)).
  pose proof (rstrip_last (text "/") u) as Hr.
  destruct (last (rstrip (text "/") u)) as [z|] eqn:Hz.
  - assert (z ≠ "/"%char) as Hne.
    { intros ->. apply (Hr "/"%char); [done|by left]. }
    change (text "//") with ["/"%char; "/"%char].
    change (text "/") with ["/"%char] in *.
    by rewrite replace_pair, (squeeze_last "/" z) by done.
  - apply last_None in Hz. by rewrite Hz.
Qed.

(** X10. Inside the URL, [sanitize_server_url] halves a run of slashes,
    rounding up: [n] slashes between two parts that hold neither a slash nor
    a colon become [(n + 1) / 2] slashes, so that three slashes or more leave
    a double slash behind. *)
Theorem sanitize_server_url_halves_slashes host path n :
  "/"%char ∉ host → ":"%char ∉ host → part "/" path → ":"%char ∉ path →
  sanitize_server_url (host ++ replicate n "/"%char ++ path)
  = host ++ replicate (Nat.div2 (S n)) "/"%char ++ path.
Proof.
  intros Hslash Hcolon [Hne Hpslash] Hpcolon. unfold sanitize_server_url.
  assert (":"%char ∉ host ++ replicate n "/"%char ++ path) as Hc.
  { rewrite !not_elem_of_app. split_and!; [done| |done]. by intros [[=] _]%elem_of_replicate. }
  rewrite (replace_absent ":" (text "http://")) by (done || compute_done).
  rewrite (replace_absent ":" (text "https://")) by (done || compute_done).
  change (text "/") with ["/"%char].
  rewrite !app_assoc, rstrip_app_ne; rewrite rstrip_absent by done; [|done].
  rewrite <-!app_assoc. change (text "//") with ["/"%char; "/"%char].
  rewrite replace_pair, squeeze_absent_app by done. rewrite squeeze_replicate.
  - by rewrite (replace_go_absent "/") by (done || compute_done).
  - destruct path as [|y path]; [done|]. simpl. apply Ascii.eqb_neq.
    intros ->. apply Hpslash. by left.
Qed.

Lemma sanitize_server_url_halves_slashes_witness :
  sanitize_server_url (text "speckle.xyz////api") = text "speckle.xyz//api".
Proof.
  apply (sanitize_server_url_halves_slashes (text "speckle.xyz") (text "api") 4);
    compute_done.
Defined.

(** X11. The server that [parse_speckle_url] reads from a URL is left as it
    is by [sanitize_server_url]. *)
Theorem parsed_server_is_sanitized url d server :
  parse_speckle_url url = Some d → d !! "server" = Some (Some server) →
  sanitize_server_url server = server.
Proof.
  intros (secure & srv & stream_id & branch_name & commit_id & rest &
          _ & [_ Hs] & _ & _ & _ & _ & ->)%parse_speckle_url_shape Hd.
  destruct (lookup_url_parts srv stream_id branch_name commit_id) as (Hl & _).
  rewrite Hl in Hd. injection Hd as <-. by apply sanitize_server_url_fixed.
Qed.

Lemma parsed_server_is_sanitized_witness :
  sanitize_server_url (text "app.speckle.systems") = text "app.speckle.systems".
Proof.
  apply (parsed_server_is_sanitized main_url
           (url_parts (text "app.speckle.systems") (text "f9eeb0be04") (text "d3bcf9820c")
              (text "ca5cde436f"))).
  - vm_compute. reflexivity.
  - vm_compute. reflexivity.
Defined.

Lemma startswith_fe2_url secure server stream_id branch_name commit_id rest :
  let url := fe2_url secure server stream_id branch_name commit_id ++ rest in
  (startswith (text "http://") url = true ∨ startswith (text "https://") url = true) ∧
  "@"%char ∈ url.
Proof.
  cbv zeta. unfold fe2_url. split.
  - destruct secure; [right|left]; rewrite <-!app_assoc.
    + change (scheme true ++ text "://" ++ ?s) with (text "https://" ++ s).
      apply startswith_app.
    + change (scheme false ++ text "://" ++ ?s) with (text "http://" ++ s).
      apply startswith_app.
  - rewrite !elem_of_app. left. do 7 right. left. by left.
Qed.

(** X12. [parse_speckle_url] returns [None] for a URL that starts with
    neither [http://] nor [https://], and for a URL without [@]: the
    [ValueError] of line 69 does not reach the caller. *)
Theorem parse_speckle_url_rejects url :
  (startswith (text "http://") url = false ∧ startswith (text "https://") url = false) ∨
  "@"%char ∉ url →
  parse_speckle_url url = None.
Proof.
  intros Hbad. destruct (parse_speckle_url url) as [d|] eqn:Hp; [|done]. exfalso.
  apply parse_speckle_url_shape in Hp
    as (secure & server & stream_id & branch_name & commit_id & rest & -> & _).
  destruct (startswith_fe2_url secure server stream_id branch_name commit_id rest)
    as [Hs Hat].
  destruct Hbad as [[H1 H2]|Hno]; [|done].
  rewrite H1, H2 in Hs. by destruct Hs.
Qed.

Lemma parse_speckle_url_rejects_witness :
  parse_speckle_url (text "https://app.speckle.systems/projects/f9eeb0be04/models/d3bcf9820c")
  = None.
Proof.
  apply (parse_speckle_url_rejects
           (text "https://app.speckle.systems/projects/f9eeb0be04/models/d3bcf9820c")).
  right. compute_done.
Defined.
